(** * Verification of funscript: the memoization engine and the async array helpers

    The memoization engine ([Memoize], [MemoizeMethod]) is modelled as a
    deterministic state machine over an explicit cache, a clock and a
    counter of underlying invocations.  The array helpers of
    [src/fun-ar/fun-ar.ts] ([findIndexSeq]; [FunAr.async.seq]: [forEach],
    [findIndex], [find], [map], [filter], [reduce]; [FunAr.async.parallel]:
    [forEach], [map], [filter]) are embedded as functions that thread the callbacks' effects
    and the settlement order of their promises. *)

From Stdlib Require Import List ZArith String Ascii Bool Arith Lia.
From Stdlib Require Import Permutation Sorted.
Import ListNotations.

(* ------------------------------------------------------------------ *)
(** ** The memoization engine *)

Module Memo.

(** Argument values a wrapped function may receive. *)
Inductive Val : Type :=
| VNum (z : Z)
| VStr (s : string)
| VBool (b : bool)
| VUndef.

(** Tokens of the canonical, type-tagged key encoding. *)
Inductive Tok : Type :=
| KArity (n : nat)
| KNum (z : Z)
| KStr (s : string)
| KBool (b : bool)
| KUndef.

Definition Key := list Tok.

Definition tok_eq_dec (a b : Tok) : {a = b} + {a <> b}.
Proof. decide equality; first [apply Z.eq_dec | apply string_dec | apply bool_dec | apply Nat.eq_dec]. Defined.

Definition key_eq_dec (a b : Key) : {a = b} + {a <> b} := list_eq_dec tok_eq_dec a b.

(** Modelled from the spec: the Key Codec ([deriveKey], section 4.1), a
    canonical type-tagged, order-sensitive encoding of the argument list. *)
Definition encodeVal (v : Val) : Tok :=
  match v with
  | VNum z => KNum z
  | VStr s => KStr s
  | VBool b => KBool b
  | VUndef => KUndef
  end.

Definition deriveKey (args : list Val) : Key :=
  KArity (List.length args) :: map encodeVal args.

(** Outcome of calling a function: the value it returns or the error it
    throws synchronously.  For an asynchronous original the returned value
    is its awaitable, passed through unchanged and stored as-is (sections
    4.4 and 5): how the awaitable later settles is not observed. *)
Inductive outcome (E R : Type) : Type :=
| Ok (v : R)
| Throw (e : E).
Arguments Ok {E R} v.
Arguments Throw {E R} e.

(** Modelled from the spec: the Expiration Policy (section 4.2).
    [Relative evaluate]: [evaluate] is re-invoked on every entry creation;
    its argument is the number of earlier evaluations, so it may re-sample a
    different delay each time.  [PromiseResolution]: every evaluation yields
    a fresh awaitable, identified by the evaluation's sequence number. *)
Inductive Expiration : Type :=
| Relative (evaluate : nat -> nat)
| PromiseResolution.

Record Options : Type := { cacheExpiration : option Expiration }.

Definition noOptions : Options := {| cacheExpiration := None |}.

(** The watcher armed for an entry. *)
Inductive Watcher : Type :=
| NoWatch
| Timer (deadline : nat)
| Awaiting (pid : nat).

Definition watcher_eqb (a b : Watcher) : bool :=
  match a, b with
  | NoWatch, NoWatch => true
  | Timer x, Timer y => Nat.eqb x y
  | Awaiting x, Awaiting y => Nat.eqb x y
  | _, _ => false
  end.

Section Engine.

Context {Recv E R : Type}.

Record Entry : Type := { value : R; watch : Watcher }.

(** Modelled from the spec: the Memoization Cache and its wrapper's state
    (sections 3 and 4.3): the key-to-entry map, the current time, the
    number of policy evaluations so far and the number of invocations of
    the original callable. *)
Record St : Type := {
  cache : list (Key * Entry);
  now : nat;
  evals : nat;
  invocations : nat
}.

Definition init : St := {| cache := []; now := 0; evals := 0; invocations := 0 |}.

Fixpoint lookup (k : Key) (c : list (Key * Entry)) : option Entry :=
  match c with
  | [] => None
  | (k', e) :: c' => if key_eq_dec k k' then Some e else lookup k c'
  end.

Definition purge (k : Key) (c : list (Key * Entry)) : list (Key * Entry) :=
  filter (fun p => if key_eq_dec k (fst p) then false else true) c.

(** [store]: discards a stale entry under [k] and inserts the new one. *)
Definition store (k : Key) (e : Entry) (c : list (Key * Entry)) : list (Key * Entry) :=
  (k, e) :: purge k c.

(** Events the wrapper observes: a call (receiver and arguments), the
    passing of [d] time units, the settlement of awaitable [pid]. *)
Inductive Event : Type :=
| Call (r : Recv) (args : list Val)
| Wait (d : nat)
| Settle (pid : nat).

(** Modelled from the spec: arming the expiration watcher of a new entry
    (section 4.2); returns the watcher and the new evaluation count. *)
Definition arm (o : Options) (s : St) : Watcher * nat :=
  match cacheExpiration o with
  | None => (NoWatch, evals s)
  | Some (Relative evaluate) => (Timer (now s + evaluate (evals s)), S (evals s))
  | Some PromiseResolution => (Awaiting (evals s), S (evals s))
  end.

(** Modelled from the spec: one call of the Function Wrapper (section 4.4):
    derive the key, return the stored value on a hit, otherwise invoke the
    original callable with the receiver forwarded, propagate a thrown error
    without storing, or store the returned value (an awaitable as-is) and
    arm its watcher. *)
Definition call (f : Recv -> list Val -> outcome E R) (o : Options) (s : St)
    (r : Recv) (args : list Val) : St * outcome E R :=
  let k := deriveKey args in
  match lookup k (cache s) with
  | Some e => (s, Ok (value e))
  | None =>
      let inv := S (invocations s) in
      match f r args with
      | Throw err =>
          ({| cache := cache s; now := now s; evals := evals s; invocations := inv |}, Throw err)
      | Ok v =>
          let (w, ev) := arm o s in
          ({| cache := store k {| value := v; watch := w |} (cache s);
              now := now s; evals := ev; invocations := inv |}, Ok v)
      end
  end.

Definition expired (t : nat) (e : Entry) : bool :=
  match watch e with
  | Timer dl => Nat.leb dl t
  | _ => false
  end.

(** Modelled from the spec: time passes; every armed timer whose deadline
    is reached fires and purges its entry. *)
Definition wait (s : St) (d : nat) : St :=
  let t := now s + d in
  {| cache := filter (fun p => negb (expired t (snd p))) (cache s);
     now := t; evals := evals s; invocations := invocations s |}.

(** Modelled from the spec: awaitable [pid] settles; the entry watching it
    is purged. *)
Definition settle (s : St) (pid : nat) : St :=
  {| cache := filter (fun p => negb (watcher_eqb (watch (snd p)) (Awaiting pid))) (cache s);
     now := now s; evals := evals s; invocations := invocations s |}.

Definition step (f : Recv -> list Val -> outcome E R) (o : Options) (s : St) (ev : Event)
    : St * option (outcome E R) :=
  match ev with
  | Call r args => let (s', res) := call f o s r args in (s', Some res)
  | Wait d => (wait s d, None)
  | Settle pid => (settle s pid, None)
  end.

(** Runs a sequence of events; collects the results of the calls. *)
Fixpoint run (f : Recv -> list Val -> outcome E R) (o : Options) (s : St) (evs : list Event)
    : St * list (outcome E R) :=
  match evs with
  | [] => (s, [])
  | ev :: evs' =>
      let (s1, r1) := step f o s ev in
      let (s2, rs) := run f o s1 evs' in
      (s2, match r1 with Some x => x :: rs | None => rs end)
  end.

End Engine.

(** Modelled from the spec: [Memoize(fn, options)] wraps a plain function;
    its calls carry no receiver. *)
Definition Memoize {E R : Type} (fn : list Val -> outcome E R) : unit -> list Val -> outcome E R :=
  fun _ args => fn args.

(** Modelled from the spec: [@MemoizeMethod(options)] wraps a method body
    taking its receiver; the receiver of each call is forwarded unchanged and
    is not part of the key (one cache per decorated method). *)
Definition MemoizeMethod {Recv E R : Type} (body : Recv -> list Val -> outcome E R)
    : Recv -> list Val -> outcome E R :=
  fun r args => body r args.

End Memo.

(* ------------------------------------------------------------------ *)
(** ** The asynchronous array helpers of [src/fun-ar/fun-ar.ts] *)

Module FunAr.

(** The settled state of a promise: fulfilled with a value or rejected.
    Callbacks are asynchronous: a failing callback rejects its promise. *)
Inductive settled (E A : Type) : Type :=
| Fulfilled (v : A)
| Rejected (e : E).
Arguments Fulfilled {E A} v.
Arguments Rejected {E A} e.

Section Seq.

Context {T E St : Type}.

(** An asynchronous predicate, [callback(input[i], i, input)], whose
    promise fulfils with a truthiness or rejects; its side effects are
    threaded through the state [St] ([thisArg] only changes the callback's
    [this] and is folded into it). *)
Variable callback : St -> T -> nat -> list T -> settled E bool * St.

(** The [for] loop of [findIndexSeq]:
    [for (i = 0; elementIndex === -1 && i < input.length; i++)]; [fuel]
    bounds the iterations.  A rejected [await callback(...)] throws out of
    the loop and rejects the [async] function.  Besides the settled result
    and the state it returns the trace of invocations: each index with its
    callback's settled promise. *)
Fixpoint findIndexSeq_loop (input : list T) (fuel i : nat) (elementIndex : Z) (s : St)
    : settled E Z * St * list (nat * settled E bool) :=
  match fuel with
  | O => (Fulfilled elementIndex, s, [])
  | S fuel' =>
      if Z.eqb elementIndex (-1) && Nat.ltb i (List.length input) then
        match nth_error input i with
        | Some x =>
            let (r, s1) := callback s x i input in
            match r with
            | Rejected e => (Rejected e, s1, [(i, r)])
            | Fulfilled found =>
                let elementIndex' := if found then Z.of_nat i else elementIndex in
                let '(res, s2, tr) := findIndexSeq_loop input fuel' (S i) elementIndex' s1 in
                (res, s2, (i, r) :: tr)
            end
        | None => (Fulfilled elementIndex, s, [])
        end
      else (Fulfilled elementIndex, s, [])
  end.

Definition findIndexSeq (input : list T) (s : St)
    : settled E Z * St * list (nat * settled E bool) :=
  findIndexSeq_loop input (List.length input) 0 (-1) s.

(** [FunAr.async.seq.find]: [const index = await findIndexSeq(...)], then
    [index === -1 ? undefined : input[index]]; a rejection of
    [findIndexSeq] rejects [find]. *)
Definition find (input : list T) (s : St)
    : settled E (option T) * St * list (nat * settled E bool) :=
  let '(r, s', tr) := findIndexSeq input s in
  (match r with
   | Fulfilled index =>
       Fulfilled (if Z.eqb index (-1) then None else nth_error input (Z.to_nat index))
   | Rejected e => Rejected e
   end, s', tr).

End Seq.

(** A trace of invocations all of which fulfilled with a falsy result. *)
Definition all_falsy {E : Type} (tr : list (nat * settled E bool)) : bool :=
  forallb (fun p => match snd p with Fulfilled false => true | _ => false end) tr.

(** Decimal rendering of an array index, as [String(i)] produces it. *)
Fixpoint decimal_aux (fuel n : nat) (acc : string) : string :=
  match fuel with
  | O => acc
  | S fuel' =>
      let acc' := String (ascii_of_nat (48 + n mod 10)) acc in
      if Nat.ltb n 10 then acc' else decimal_aux fuel' (n / 10) acc'
  end.

Definition decimal (n : nat) : string := decimal_aux (S n) n EmptyString.

(** [Array.prototype.sort] with no comparator: elements are compared as
    strings, by code units (a stable insertion sort). *)
Definition default_sort_lt (a b : nat) : bool := String.ltb (decimal a) (decimal b).

(** The same order as a relation. *)
Definition dlt (a b : nat) : Prop := default_sort_lt a b = true.

Fixpoint sort_insert (x : nat) (l : list nat) : list nat :=
  match l with
  | [] => [x]
  | y :: l' => if default_sort_lt x y then x :: y :: l' else y :: sort_insert x l'
  end.

Fixpoint default_sort (l : list nat) : list nat :=
  match l with
  | [] => []
  | x :: l' => sort_insert x (default_sort l')
  end.

Section Parallel.

Context {T : Type}.

(** The [async] closures pushed by [input.forEach] settle in the order
    [schedule] (a permutation of the indices); the closure of index [i]
    pushes [i] to [filterResults] when its awaited [response] is truthy. *)
Fixpoint collect (responses : list bool) (schedule : list nat) (filterResults : list nat)
    : list nat :=
  match schedule with
  | [] => filterResults
  | i :: sch =>
      let filterResults' :=
        if nth i responses false then filterResults ++ [i] else filterResults in
      collect responses sch filterResults'
  end.

(** [FunAr.async.parallel.filter] once [await Promise.all(promises)] has
    fulfilled, every callback having resolved with its response:
    [filterResults.sort().map(inputIndex => input[inputIndex])]
    ([parallel_filter_async] below adds the invocations and the rejection
    of [Promise.all]). *)
Definition parallel_filter (input : list T) (responses : list bool) (schedule : list nat)
    : list (option T) :=
  map (fun inputIndex => nth_error input inputIndex)
      (default_sort (collect responses schedule [])).

End Parallel.

(** *** The other helpers of [FunAr.async] *)


(** [Array.prototype.reduce(step, acc)] with an initial value: [step]
    receives the accumulator, the item and its index, from [index] on. *)
Fixpoint array_reduce {P T : Type} (step : P -> T -> nat -> P) (acc : P) (l : list T)
    (index : nat) : P :=
  match l with
  | [] => acc
  | item :: l' => array_reduce step (step acc item index) l' (S index)
  end.

(** The elements of [input] whose flag in [bools] is [true], in order. *)
Fixpoint keep {T : Type} (input : list T) (bools : list bool) : list T :=
  match input, bools with
  | x :: xs, b :: bs => if b then x :: keep xs bs else keep xs bs
  | _, _ => []
  end.

Section Sequential.

Context {T E St : Type}.

(** [promise.then(h)] on a promise settled as [p]; the callbacks' state is
    threaded through the continuation.  The chains built by the sequential
    helpers are linear, so each link runs once, after the previous one. *)
Definition then_ {X Y : Type} (p : settled E X) (h : X -> St -> settled E Y * St) (s : St)
    : settled E Y * St :=
  match p with
  | Fulfilled v => h v s
  | Rejected e => (Rejected e, s)
  end.

(** [FunAr.async.seq.forEach]: the chain
    [promise.then(() => promise.then(() => callback(item, index, input)))]
    started from [Promise.resolve()] ([None] is [undefined]). *)
Definition seq_forEach {A : Type} (callback : St -> T -> nat -> list T -> settled E A * St)
    (input : list T) (s : St) : settled E (option A) * St :=
  array_reduce (fun '(promise, s) item index =>
      then_ promise (fun _ s =>
        then_ promise (fun _ s =>
          let (r, s1) := callback s item index input in
          then_ r (fun v s => (Fulfilled (Some v), s)) s1) s) s)
    (Fulfilled None, s) input 0.

(** [FunAr.async.seq.map]. *)
Definition seq_map {A : Type} (callback : St -> T -> nat -> list T -> settled E A * St)
    (input : list T) (s : St) : settled E (list A) * St :=
  let onResponse (partialList : list A) (itemResult : A) := partialList ++ [itemResult] in
  array_reduce (fun '(promise, s) item index =>
      then_ promise (fun partialList s =>
        let (r, s1) := then_ promise (fun _ s => callback s item index input) s in
        then_ r (fun itemResult s => (Fulfilled (onResponse partialList itemResult), s)) s1) s)
    (Fulfilled [], s) input 0.

(** [FunAr.async.seq.filter]; the callback's result is awaited to its
    truthiness. *)
Definition seq_filter (callback : St -> T -> nat -> list T -> settled E bool * St)
    (input : list T) (s : St) : settled E (list T) * St :=
  let onResponse (partialList : list T) (item : T) (doInclude : bool) :=
    if negb doInclude then partialList else partialList ++ [item] in
  array_reduce (fun '(promise, s) item index =>
      then_ promise (fun partialList s =>
        let (r, s1) := then_ promise (fun _ s => callback s item index input) s in
        then_ r (fun doInclude s => (Fulfilled (onResponse partialList item doInclude), s)) s1) s)
    (Fulfilled [], s) input 0.

(** The callback of a sequential helper, instrumented to record each
    invocation: the index it received and how its promise settled. *)
Definition log_calls {A : Type} (callback : St -> T -> nat -> list T -> settled E A * St)
    : St * list (nat * settled E A) -> T -> nat -> list T ->
      settled E A * (St * list (nat * settled E A)) :=
  fun '(s, log) item index arr =>
    let (r, s1) := callback s item index arr in (r, (s1, log ++ [(index, r)])).

End Sequential.

(** [FunAr.async.seq.reduce] over JavaScript values [option W] ([None] is
    [undefined]): [typeof initialValue === 'undefined'] selects
    [input.slice(1)], [input[0]] and an index offset of 1. *)
Definition seq_reduce {E St W : Type}
    (callback : St -> option W -> option W -> nat -> settled E (option W) * St)
    (input : list (option W)) (initialValue : option W) (s : St)
    : settled E (option W) * St :=
  let fullInput := match initialValue with None => skipn 1 input | Some _ => input end in
  let firstValue := match initialValue with None => hd None input | Some v => Some v end in
  let indexOffset := match initialValue with None => 1 | Some _ => 0 end in
  array_reduce (fun '(promise, s) item index =>
      then_ promise (fun acc s => callback s acc item (index + indexOffset)) s)
    (Fulfilled firstValue, s) fullInput 0.

(** What calling a callback does: it returns a value (a promise, settled
    as [p]; a value that is not a promise counts as fulfilled) or throws
    synchronously. *)
Inductive invocation (E A : Type) : Type :=
| Returns (p : settled E A)
| Throws (e : E).
Arguments Returns {E A} p.
Arguments Throws {E A} e.

Section Parallel2.

Context {T E A St : Type}.

(** The synchronous phase of the parallel helpers: [input.forEach] (or
    [input.reduce]) invokes every callback in index order and keeps the
    returned promises. *)
Fixpoint invoke_all (callback : St -> T -> nat -> list T -> settled E A * St)
    (input items : list T) (index : nat) (s : St) : list (settled E A) * St :=
  match items with
  | [] => ([], s)
  | item :: items' =>
      let (r, s1) := callback s item index input in
      let (rs, s2) := invoke_all callback input items' (S index) s1 in
      (r :: rs, s2)
  end.

(** [Promise.all(promises)] settled in the order [schedule]: it rejects
    with the first rejection to settle. *)
Fixpoint first_rejection (promises : list (settled E A)) (schedule : list nat) : option E :=
  match schedule with
  | [] => None
  | i :: sch =>
      match nth_error promises i with
      | Some (Rejected e) => Some e
      | _ => first_rejection promises sch
      end
  end.

(** [newAr[index] = response] (the indices written are in range). *)
Fixpoint array_set {X : Type} (l : list X) (index : nat) (x : X) : list X :=
  match l, index with
  | [], _ => []
  | _ :: l', O => x :: l'
  | y :: l', S i => y :: array_set l' i x
  end.

(** The synchronous phase of [FunAr.async.parallel.forEach]:
    [input.reduce] calls [callback(item, index, input)] directly, outside
    any [async] closure, so a synchronous throw aborts the reduce and no
    later callback is invoked.  Otherwise the returned promises are kept. *)
Fixpoint invoke_until_throw (callback : St -> T -> nat -> list T -> invocation E A * St)
    (input items : list T) (index : nat) (s : St) : (list (settled E A) + E) * St :=
  match items with
  | [] => (inl [], s)
  | item :: items' =>
      let (r, s1) := callback s item index input in
      match r with
      | Throws e => (inr e, s1)
      | Returns p =>
          let (rest, s2) := invoke_until_throw callback input items' (S index) s1 in
          (match rest with inl ps => inl (p :: ps) | inr e => inr e end, s2)
      end
  end.

(** [FunAr.async.parallel.forEach]:
    [Promise.all(input.reduce(...)).then(() => void 0)]; a throw out of the
    reduce rejects the [async] arrow function with the thrown error. *)
Definition parallel_forEach (callback : St -> T -> nat -> list T -> invocation E A * St)
    (input : list T) (s : St) (schedule : list nat) : settled E unit * St :=
  let (r, s1) := invoke_until_throw callback input input 0 s in
  (match r with
   | inr e => Rejected e
   | inl promises =>
       match first_rejection promises schedule with
       | Some e => Rejected e
       | None => Fulfilled tt
       end
   end, s1).

(** Instruments a callback of [parallel.forEach]: each invocation is logged
    with its index and what the callback did. *)
Definition log_invocations (callback : St -> T -> nat -> list T -> invocation E A * St)
    : St * list (nat * invocation E A) -> T -> nat -> list T ->
      invocation E A * (St * list (nat * invocation E A)) :=
  fun '(s, log) item index arr =>
    let (r, s1) := callback s item index arr in (r, (s1, log ++ [(index, r)])).

(** [FunAr.async.parallel.map]: [newAr = new Array(input.length)] (holes
    are [None]); the closure of index [i], when its promise fulfils, writes
    [newAr[i]]; the closures settle in the order [schedule]. *)
Definition parallel_map (callback : St -> T -> nat -> list T -> settled E A * St)
    (input : list T) (s : St) (schedule : list nat) : settled E (list (option A)) * St :=
  let (promises, s1) := invoke_all callback input input 0 s in
  let newAr :=
    fold_left (fun newAr index =>
        match nth_error promises index with
        | Some (Fulfilled response) => array_set newAr index (Some response)
        | _ => newAr
        end) schedule (repeat None (List.length input)) in
  (match first_rejection promises schedule with
   | Some e => Rejected e
   | None => Fulfilled newAr
   end, s1).

End Parallel2.

(** [FunAr.async.parallel.filter] as a whole: [input.forEach] pushes one
    [async] closure per index (a throwing callback rejects its closure);
    [await Promise.all(promises)] rejects with the first rejection to settle,
    and otherwise the closures have pushed, in settlement order, the indices
    whose response is truthy, which [parallel_filter] sorts and maps. *)
Definition parallel_filter_async {T E St : Type}
    (callback : St -> T -> nat -> list T -> settled E bool * St)
    (input : list T) (s : St) (schedule : list nat) : settled E (list (option T)) * St :=
  let (promises, s1) := invoke_all callback input input 0 s in
  (match first_rejection promises schedule with
   | Some e => Rejected e
   | None =>
       Fulfilled (parallel_filter input
                    (map (fun p => match p with Fulfilled b => b | Rejected _ => false end)
                         promises) schedule)
   end, s1).

(** The common shape of one link of the sequential chains: once the
    previous promise fulfilled with [acc], invoke the callback and, when its
    promise fulfils with [v], fulfil with [g acc item v]. *)
Definition chain_step {T E St A X : Type} (callback : St -> T -> nat -> list T -> settled E A * St)
    (input : list T) (g : X -> T -> A -> X) : settled E X * St -> T -> nat -> settled E X * St :=
  fun '(promise, s) item index =>
    then_ promise (fun acc s =>
      let (r, s1) := callback s item index input in
      then_ r (fun v s => (Fulfilled (g acc item v), s)) s1) s.

(** The accumulator after combining each item with its fulfilled value. *)
Fixpoint fold_values {T A X : Type} (g : X -> T -> A -> X) (acc : X) (items : list T) (vs : list A)
    : X :=
  match items, vs with
  | item :: items', v :: vs' => fold_values g (g acc item v) items' vs'
  | _, _ => acc
  end.

End FunAr.

(* ------------------------------------------------------------------ *)
(** ** Fixtures of the memoization tests *)

Module Fixtures.

Import Memo.

Definition relativeOpts (evaluate : nat -> nat) : Options :=
  {| cacheExpiration := Some (Relative evaluate) |}.

Definition promiseOpts : Options := {| cacheExpiration := Some PromiseResolution |}.

(** [const calc = (input: number) => map(input)] with [map = input * 2]. *)
Definition calc (args : list Val) : outcome string Z :=
  match args with
  | [VNum z] => Ok (2 * z)%Z
  | _ => Throw "unsupported"%string
  end.

(** A callable that throws on [12] and doubles every other number. *)
Definition calc_throwing (args : list Val) : outcome string Z :=
  match args with
  | [VNum 12] => Throw "boom"%string
  | [VNum z] => Ok (2 * z)%Z
  | _ => Throw "unsupported"%string
  end.

(** [class TestClass { constructor(private offset: number) ... }]: [calc]
    calls the private [map], which reads the receiver's [offset]. *)
Record TestClass : Type := { offset : Z }.

Definition TestClass_map (this : TestClass) (input : Z) : Z := (2 * input + offset this)%Z.

Definition TestClass_calc (this : TestClass) (args : list Val) : outcome string Z :=
  match args with
  | [VNum input] => Ok (TestClass_map this input)
  | _ => Throw "unsupported"%string
  end.

(** An asynchronous callback for the [FunAr] helpers: it counts its
    invocations in the state, rejects on the element [1] and doubles the
    others. *)
Definition double_unless_one (s : nat) (item : nat) (index : nat) (arr : list nat)
    : FunAr.settled string nat * nat :=
  (if Nat.eqb item 1 then FunAr.Rejected "one"%string else FunAr.Fulfilled (2 * item), S s).

(** An asynchronous [calc]: it returns, synchronously, an awaitable that
    rejects (the awaitable is described by how it settles). *)
Definition calc_async_rejecting (args : list Val) : outcome string (FunAr.settled string Z) :=
  Ok (FunAr.Rejected "boom"%string).

(** An asynchronous predicate for [FunAr.async.seq.find]: it counts its
    invocations, rejects on the element [1] and is truthy on [2]. *)
Definition reject_on_one (s : nat) (item : nat) (index : nat) (arr : list nat)
    : FunAr.settled string bool * nat :=
  (if Nat.eqb item 1 then FunAr.Rejected "one"%string else FunAr.Fulfilled (Nat.eqb item 2), S s).

(** A callback for [FunAr.async.parallel.forEach] that is not an [async]
    function: it throws synchronously on the element [1] and otherwise
    returns a promise that fulfils. *)
Definition throw_on_one (s : nat) (item : nat) (index : nat) (arr : list nat)
    : FunAr.invocation string nat * nat :=
  (if Nat.eqb item 1 then FunAr.Throws "one"%string else FunAr.Returns (FunAr.Fulfilled item), S s).

End Fixtures.

(* ------------------------------------------------------------------ *)
(** ** Facts about the cache *)

Module MemoFacts.

Import Memo.

Section Cache.

Context {Recv E R : Type}.

Implicit Types (c : list (Key * @Entry R)) (s : @St R) (e : @Entry R).

Lemma lookup_none_notin k c : ~ In k (map fst c) -> lookup k c = None.
Proof.
  induction c as [|[k' e'] c IH]; simpl; intros Hn; [reflexivity|].
  destruct (key_eq_dec k k'); [subst; tauto|].
  apply IH; tauto.
Qed.

Lemma lookup_some_in k c e : lookup k c = Some e -> In (k, e) c.
Proof.
  induction c as [|[k' e'] c IH]; simpl; [discriminate|].
  destruct (key_eq_dec k k'); [intros H; injection H; intros; subst; auto|].
  intros H; right; auto.
Qed.

Lemma in_map_fst_filter k (P : Key * Entry -> bool) c :
  In k (map fst (filter P c)) -> In k (map fst c).
Proof.
  induction c as [|[k' e'] c IH]; simpl; [tauto|].
  destruct (P (k', e')); simpl; intuition.
Qed.

Lemma nodup_filter (P : Key * Entry -> bool) c :
  NoDup (map fst c) -> NoDup (map fst (filter P c)).
Proof.
  induction c as [|[k' e'] c IH]; simpl; intros Hd; [constructor|].
  inversion Hd; subst.
  destruct (P (k', e')); simpl; [|auto].
  constructor; [|auto].
  intros Hin; apply in_map_fst_filter in Hin; auto.
Qed.

Lemma lookup_purge_other k k' c : k <> k' -> lookup k (purge k' c) = lookup k c.
Proof.
  intros Hne; unfold purge.
  induction c as [|[k0 e0] c IH]; simpl; [reflexivity|].
  destruct (key_eq_dec k' k0) as [->|Hn]; simpl.
  - destruct (key_eq_dec k k0); [congruence|exact IH].
  - destruct (key_eq_dec k k0); [reflexivity|exact IH].
Qed.

Lemma lookup_store_same k e c : lookup k (store k e c) = Some e.
Proof. unfold store; simpl; destruct (key_eq_dec k k); congruence. Qed.

Lemma lookup_store_other k k' e c : k <> k' -> lookup k (store k' e c) = lookup k c.
Proof.
  intros Hne; unfold store; simpl.
  destruct (key_eq_dec k k'); [congruence|].
  apply lookup_purge_other; exact Hne.
Qed.

Lemma nodup_store k e c : NoDup (map fst c) -> NoDup (map fst (store k e c)).
Proof.
  intros Hd; unfold store; simpl; constructor.
  - unfold purge; induction c as [|[k' e'] c IH]; simpl; [tauto|].
    inversion Hd as [|? ? _ Hd']; subst.
    destruct (key_eq_dec k k'); simpl; [exact (IH Hd')|].
    intros [H|H]; [congruence|exact (IH Hd' H)].
  - apply nodup_filter; exact Hd.
Qed.

Lemma lookup_filter_keep (P : Key * Entry -> bool) k e c :
  lookup k c = Some e -> P (k, e) = true -> lookup k (filter P c) = Some e.
Proof.
  induction c as [|[k' e'] c IH]; simpl; [discriminate|].
  destruct (key_eq_dec k k') as [->|Hn].
  - intros H; injection H as <-; intros HP; rewrite HP; simpl.
    destruct (key_eq_dec k' k'); congruence.
  - intros H HP; destruct (P (k', e')); simpl; [|auto].
    destruct (key_eq_dec k k'); [congruence|auto].
Qed.

Lemma lookup_filter_drop (P : Key * Entry -> bool) k e c :
  NoDup (map fst c) -> lookup k c = Some e -> P (k, e) = false ->
  lookup k (filter P c) = None.
Proof.
  induction c as [|[k' e'] c IH]; simpl; [discriminate|].
  intros Hd; inversion Hd as [|? ? Hnin Hd']; subst.
  destruct (key_eq_dec k k') as [->|Hn].
  - intros H; injection H as <-; intros HP; rewrite HP.
    apply lookup_none_notin; intros Hin; apply in_map_fst_filter in Hin; auto.
  - intros H HP; destruct (P (k', e')); simpl; [|auto].
    destruct (key_eq_dec k k'); [congruence|auto].
Qed.

(** Well-formedness of a wrapper state: no two entries share a key. *)
Definition wf s : Prop := NoDup (map fst (cache s)).

Lemma wf_init : wf (@init R).
Proof. constructor. Qed.

Lemma wf_step f (o : Options) s (ev : @Event Recv) :
  wf s -> wf (fst (step (E:=E) f o s ev)).
Proof.
  unfold wf; intros Hd; destruct ev as [r args|d|p]; simpl.
  - unfold call; destruct (lookup (deriveKey args) (cache s)); simpl; [exact Hd|].
    destruct (f r args); simpl; [|exact Hd].
    destruct (arm o s) as [w n]; exact (nodup_store (deriveKey args) {| value := v; watch := w |} _ Hd).
  - apply nodup_filter; exact Hd.
  - apply nodup_filter; exact Hd.
Qed.

Lemma run_app f (o : Options) s (evs1 evs2 : list (@Event Recv)) :
  run (E:=E) f o s (evs1 ++ evs2) =
  let (s1, rs1) := run f o s evs1 in
  let (s2, rs2) := run f o s1 evs2 in (s2, rs1 ++ rs2).
Proof.
  revert s; induction evs1 as [|ev evs1 IH]; intros s; simpl.
  - destruct (run f o s evs2); reflexivity.
  - destruct (step f o s ev) as [s1 r1].
    rewrite IH.
    destruct (run f o s1 evs1) as [s2 rs1].
    destruct (run f o s2 evs2) as [s3 rs2].
    destruct r1; reflexivity.
Qed.

Lemma wf_run f (o : Options) s (evs : list (@Event Recv)) :
  wf s -> wf (fst (run (E:=E) f o s evs)).
Proof.
  revert s; induction evs as [|ev evs IH]; intros s Hs; simpl; [exact Hs|].
  pose proof (wf_step f o s ev Hs) as H1.
  destruct (step f o s ev) as [s1 r1]; simpl in H1.
  specialize (IH s1 H1); destruct (run f o s1 evs); exact IH.
Qed.

(** A hit leaves the whole state as it is. *)
Lemma call_hit f (o : Options) s (r : Recv) args e :
  lookup (deriveKey args) (cache s) = Some e ->
  call (E:=E) f o s r args = (s, Ok (value e)).
Proof. intros H; unfold call; rewrite H; reflexivity. Qed.

Lemma run_hits f (o : Options) s (r : Recv) args e n :
  lookup (deriveKey args) (cache s) = Some e ->
  run (E:=E) f o s (repeat (Call r args) n) = (s, repeat (Ok (value e)) n).
Proof.
  intros H; induction n as [|n IH]; simpl; [reflexivity|].
  rewrite (call_hit f o s r args e H), IH; reflexivity.
Qed.

(** A miss whose callable returns stores its value under the key. *)
Lemma call_miss_ok f (o : Options) s (r : Recv) args v :
  lookup (deriveKey args) (cache s) = None -> f r args = Ok v ->
  let (s', res) := call (E:=E) f o s r args in
  res = Ok v /\ invocations s' = S (invocations s) /\
  now s' = now s /\
  cache s' = store (deriveKey args) {| value := v; watch := fst (arm o s) |} (cache s).
Proof.
  intros Hl Hf; unfold call; rewrite Hl, Hf.
  destruct (arm o s) as [w ev]; simpl; auto.
Qed.

(** An entry survives every event that does not fire its own watcher. *)
Lemma step_keeps_entry f (o : Options) s (ev : @Event Recv) k e :
  lookup k (cache s) = Some e ->
  match ev with
  | Call _ _ => True
  | Wait d => expired (now s + d) e = false
  | Settle p => watcher_eqb (watch e) (Awaiting p) = false
  end ->
  lookup k (cache (fst (step (E:=E) f o s ev))) = Some e.
Proof.
  intros Hl; destruct ev as [r args|d|p]; simpl; intros Hc.
  - unfold call.
    destruct (lookup (deriveKey args) (cache s)) eqn:Ha; [exact Hl|].
    destruct (f r args); [|exact Hl].
    destruct (arm o s); cbn [fst cache].
    rewrite lookup_store_other; [exact Hl|].
    intros ->; congruence.
  - apply lookup_filter_keep; [exact Hl|]; simpl; rewrite Hc; reflexivity.
  - apply lookup_filter_keep; [exact Hl|]; simpl; rewrite Hc; reflexivity.
Qed.

(** The watchers of all entries satisfy [Pw] when every armed one does. *)
Definition watchers_ok (Pw : Watcher -> Prop) s : Prop :=
  Forall (fun p => Pw (watch (snd p))) (cache s).

Lemma forall_filter_sub {A} (Q : A -> Prop) (P : A -> bool) (l : list A) :
  Forall Q l -> Forall Q (filter P l).
Proof.
  rewrite !Forall_forall; intros H x Hx; apply filter_In in Hx; apply H; tauto.
Qed.

Lemma watchers_ok_step f (o : Options) (Pw : Watcher -> Prop)
    (Harm : forall s : @St R, Pw (fst (arm o s))) s (ev : @Event Recv) :
  watchers_ok Pw s -> watchers_ok Pw (fst (step (E:=E) f o s ev)).
Proof.
  unfold watchers_ok; intros H; destruct ev as [r args|d|p]; simpl.
  - unfold call; destruct (lookup (deriveKey args) (cache s)); [exact H|].
    destruct (f r args); [|exact H].
    specialize (Harm s); destruct (arm o s) as [w n]; cbn [cache fst] in *.
    constructor; [exact Harm|]; apply forall_filter_sub; exact H.
  - apply forall_filter_sub; exact H.
  - apply forall_filter_sub; exact H.
Qed.

Lemma watchers_ok_run f (o : Options) (Pw : Watcher -> Prop)
    (Harm : forall s : @St R, Pw (fst (arm o s))) s (evs : list (@Event Recv)) :
  watchers_ok Pw s -> watchers_ok Pw (fst (run (E:=E) f o s evs)).
Proof.
  revert s; induction evs as [|ev evs IH]; intros s Hs; simpl; [exact Hs|].
  pose proof (watchers_ok_step f o Pw Harm s ev Hs) as H1.
  destruct (step f o s ev) as [s1 r1]; simpl in H1.
  specialize (IH s1 H1); destruct (run f o s1 evs); exact IH.
Qed.

Lemma watchers_ok_lookup (Pw : Watcher -> Prop) s k e :
  watchers_ok Pw s -> lookup k (cache s) = Some e -> Pw (watch e).
Proof.
  unfold watchers_ok; rewrite Forall_forall; intros H Hl.
  apply lookup_some_in in Hl; exact (H _ Hl).
Qed.

(** Repeated calls from a miss: one invocation, then hits. *)
Lemma run_calls_from_miss f (o : Options) s (r : Recv) args v n :
  lookup (deriveKey args) (cache s) = None -> f r args = Ok v ->
  let (s', rs) := run (E:=E) f o s (repeat (Call r args) (S n)) in
  invocations s' = S (invocations s) /\ rs = repeat (Ok v) (S n).
Proof.
  intros Hmiss Hf.
  pose proof (call_miss_ok f o s r args v Hmiss Hf) as Hm.
  cbn [repeat run step].
  destruct (call f o s r args) as [s1 r1].
  destruct Hm as (-> & Hinv & _ & Hc).
  rewrite (run_hits f o s1 r args {| value := v; watch := fst (arm o s) |} n)
    by (rewrite Hc; apply lookup_store_same).
  split; [exact Hinv | reflexivity].
Qed.

End Cache.

End MemoFacts.

(* ------------------------------------------------------------------ *)
(** ** Properties of the memoization engine *)

Module MemoClaims.

Import Memo MemoFacts Fixtures.

(** C1 (idempotent hit): for a function [f] that computes the value [v] on
    the arguments [a], calling [Memoize(f)] on [a] N > 1 times in a row, from
    any state where [a] is not cached (a fresh wrapper in particular),
    invokes [f] exactly once and every call returns [v]. *)
Theorem memoize_idempotent_hit {E R : Type} (f : list Val -> outcome E R) (o : Options)
    (s : @St R) (a : list Val) (v : R) (n : nat)
    (Hmiss : lookup (deriveKey a) (cache s) = None) (Hf : f a = Ok v) :
  let (s', rs) := run (Memoize f) o s (repeat (Call tt a) (S (S n))) in
  invocations s' = S (invocations s) /\ rs = repeat (Ok v) (S (S n)).
Proof.
  pose proof (call_miss_ok (Memoize f) o s tt a v Hmiss Hf) as Hm.
  change (repeat (Call tt a) (S (S n))) with (Call tt a :: repeat (Call tt a) (S n)).
  cbn [run step].
  destruct (call (Memoize f) o s tt a) as [s1 r1].
  destruct Hm as (-> & Hinv & _ & Hc).
  rewrite (run_hits (Memoize f) o s1 tt a {| value := v; watch := fst (arm o s) |} (S n))
    by (rewrite Hc; apply lookup_store_same).
  split; [exact Hinv | reflexivity].
Qed.

Lemma memoize_idempotent_hit_witness :
  let (s', rs) := run (Memoize calc) noOptions init (repeat (Call tt [VNum 12]) 3) in
  invocations s' = 1 /\ rs = repeat (Ok 24%Z) 3.
Proof.
  exact (memoize_idempotent_hit calc noOptions init [VNum 12] 24%Z 1 eq_refl eq_refl).
Defined.

(** C2 (key separation), as stated, fails when [f] throws on [a]: a
    failure is never memoized, so [g(a), g(b), g(a)] invokes [f] three times. *)
Lemma key_separation_counterexample :
  deriveKey [VNum 12] <> deriveKey [VNum 13] /\
  invocations (fst (run (Memoize calc_throwing) noOptions init
                      [Call tt [VNum 12]; Call tt [VNum 13]; Call tt [VNum 12]])) = 3.
Proof. split; [discriminate | reflexivity]. Qed.

(** C2 (key separation, amended): structurally equal argument lists derive
    equal keys; and for arguments [a], [b] with different keys, where [f]
    returns a value on [a], the calls [g(a), g(b), g(a)] of a fresh wrapper
    [g = Memoize(f)] invoke [f] exactly twice, and the third call returns
    the first call's value. *)
Theorem key_separation {E R : Type} (f : list Val -> outcome E R) (o : Options)
    (a b : list Val) (v : R)
    (Hkey : deriveKey a <> deriveKey b) (Hf : f a = Ok v) :
  (forall x y : list Val, x = y -> deriveKey x = deriveKey y) /\
  let (s', rs) := run (Memoize f) o init [Call tt a; Call tt b; Call tt a] in
  invocations s' = 2 /\ rs = [Ok v; f b; Ok v].
Proof.
  split; [intros x y ->; reflexivity|].
  assert (Hmiss : lookup (deriveKey a) (cache (@init R)) = None) by reflexivity.
  pose proof (call_miss_ok (Memoize f) o init tt a v Hmiss Hf) as Hm.
  cbn [run step].
  destruct (call (Memoize f) o init tt a) as [s1 r1].
  destruct Hm as (-> & Hinv & _ & Hc).
  set (e := {| value := v; watch := fst (arm o init) |}) in Hc.
  assert (Hb : lookup (deriveKey b) (cache s1) = None).
  { rewrite Hc, lookup_store_other by congruence; reflexivity. }
  assert (Ha : lookup (deriveKey a) (cache s1) = Some e).
  { rewrite Hc; apply lookup_store_same. }
  unfold call at 1; rewrite Hb; unfold Memoize at 1.
  destruct (f b) as [vb|err] eqn:Hfb.
  - destruct (arm o s1) as [w n]; cbn [cache invocations].
    rewrite (call_hit _ _ _ tt a e) by (cbn [cache]; rewrite lookup_store_other by congruence; exact Ha).
    split; [simpl; rewrite Hinv; reflexivity | reflexivity].
  - rewrite (call_hit _ _ _ tt a e) by exact Ha.
    split; [simpl; rewrite Hinv; reflexivity | reflexivity].
Qed.

Lemma key_separation_witness :
  (forall x y : list Val, x = y -> deriveKey x = deriveKey y) /\
  let (s', rs) := run (Memoize calc) noOptions init
                    [Call tt [VNum 12]; Call tt [VNum 13]; Call tt [VNum 12]] in
  invocations s' = 2 /\ rs = [Ok 24%Z; calc [VNum 13]; Ok 24%Z].
Proof.
  exact (key_separation calc noOptions [VNum 12] [VNum 13] 24%Z
           ltac:(discriminate) eq_refl).
Defined.

(** C3 (relative expiration): with [type: "relative"] and
    [evaluate() = 100], calling a fresh wrapper on [a], waiting [d >= 200]
    time units and calling again invokes the function exactly twice, and
    both calls return what the function computes on [a]. *)
Theorem relative_expiration {E R : Type} (f : list Val -> outcome E R) (a : list Val)
    (d : nat) (Hd : 200 <= d) :
  let (s', rs) := run (Memoize f) (relativeOpts (fun _ => 100)) init
                    [Call tt a; Wait d; Call tt a] in
  invocations s' = 2 /\ rs = [f a; f a].
Proof.
  cbn [run step].
  unfold call at 1; cbn [init cache lookup].
  unfold Memoize at 1.
  destruct (f a) as [v|err] eqn:Hfa.
  - cbn [arm relativeOpts cacheExpiration init now evals].
    assert (Hw : lookup (deriveKey a)
                   (cache (wait {| cache := store (deriveKey a)
                                     {| value := v; watch := Timer (0 + 100) |} [];
                                   now := 0; evals := 1; invocations := 1 |} d)) = None).
    { unfold wait; cbn [cache now].
      unfold store, purge; simpl.
      unfold expired; cbn [watch].
      replace (Nat.leb 100 d) with true by (symmetry; apply Nat.leb_le; lia).
      reflexivity. }
    change (S (invocations (@init R))) with 1; unfold call; rewrite Hw; unfold Memoize; rewrite Hfa.
    destruct (arm _ _); split; reflexivity.
  - unfold call; cbn [wait cache lookup filter invocations].
    unfold Memoize; rewrite Hfa; split; reflexivity.
Qed.

Lemma relative_expiration_witness :
  let (s', rs) := run (Memoize calc) (relativeOpts (fun _ => 100)) init
                    [Call tt [VNum 12]; Wait 200; Call tt [VNum 12]] in
  invocations s' = 2 /\ rs = [Ok 24%Z; Ok 24%Z].
Proof. exact (relative_expiration calc [VNum 12] 200 (le_n 200)). Defined.

(** C4 (promise-resolution expiration, repeatable): with
    [type: "promise-resolution"] (each evaluation yields a fresh awaitable),
    every entry of a reachable state watches the awaitable obtained at its
    creation; settling that awaitable purges the entry, and every other event
    leaves it in place; and three rounds of trigger-then-call on the same
    argument (the first trigger finds no awaitable yet) invoke the function
    exactly three times, every call returning what the function computes. *)
Theorem promise_expiration_repeatable {E R : Type} (f : list Val -> outcome E R)
    (evs : list (@Event unit)) (a : list Val) (p0 : nat) :
  (let s := fst (run (Memoize f) promiseOpts init evs) in
   forall k e, lookup k (cache s) = Some e ->
   exists p, watch e = Awaiting p /\
     lookup k (cache (settle s p)) = None /\
     (forall ev, ev <> Settle p ->
        lookup k (cache (fst (step (Memoize f) promiseOpts s ev))) = Some e)) /\
  (let (s', rs) := run (Memoize f) promiseOpts init
                     [Settle p0; Call tt a; Settle 0; Call tt a; Settle 1; Call tt a] in
   invocations s' = 3 /\ rs = [f a; f a; f a]).
Proof.
  split.
  - cbv zeta; intros k e Hl.
    set (s := fst (run (Memoize f) promiseOpts init evs)) in *.
    assert (Hinv : watchers_ok (fun w => exists p, w = Awaiting p) s).
    { apply watchers_ok_run; [intros s0; simpl; eauto | constructor]. }
    destruct (watchers_ok_lookup _ s k e Hinv Hl) as [p Hp].
    exists p; split; [exact Hp|]; split.
    + apply (lookup_filter_drop _ k e); [apply wf_run, wf_init | exact Hl |].
      simpl; rewrite Hp; simpl; rewrite Nat.eqb_refl; reflexivity.
    + intros ev Hne; apply step_keeps_entry; [exact Hl|].
      destruct ev as [r args|d|q]; [exact I | unfold expired; rewrite Hp; reflexivity |].
      rewrite Hp; simpl; apply Nat.eqb_neq; congruence.
  - simpl; unfold call, settle, Memoize, store, purge; simpl.
    destruct (f a) as [v|err]; simpl; split; reflexivity.
Qed.

Lemma promise_expiration_repeatable_witness :
  exists p, watch {| value := 24%Z; watch := Awaiting 0 |} = Awaiting p /\
    lookup (deriveKey [VNum 12])
      (cache (settle (fst (run (Memoize calc) promiseOpts init [Call tt [VNum 12]])) p)) = None.
Proof.
  destruct (proj1 (promise_expiration_repeatable calc [Call tt [VNum 12]] [VNum 12] 0)
              (deriveKey [VNum 12]) {| value := 24%Z; watch := Awaiting 0 |} eq_refl)
    as [p (Hp & Hs & _)].
  exists p; split; [exact Hp | exact Hs].
Defined.

(** C5 (receiver preservation): a method decorated with [MemoizeMethod]
    runs its body on the receiver of the call; repeated calls on the same
    instance [this] with the same arguments invoke the body exactly once and
    all return the body's value for that instance. *)
Theorem memoize_method_receiver {Recv E R : Type} (body : Recv -> list Val -> outcome E R)
    (o : Options) (this : Recv) (a : list Val) (v : R) (n : nat)
    (Hbody : body this a = Ok v) :
  let (s', rs) := run (MemoizeMethod body) o init (repeat (Call this a) (S n)) in
  invocations s' = 1 /\ rs = repeat (Ok v) (S n).
Proof.
  exact (run_calls_from_miss (MemoizeMethod body) o init this a v n eq_refl Hbody).
Qed.

(** The test's instance: [offset = 18], [calc(123)] returns
    [map(123) + offset = 264] three times, with one invocation. *)
Lemma memoize_method_receiver_witness :
  let (s', rs) := run (MemoizeMethod TestClass_calc) (relativeOpts (fun _ => 1000)) init
                    (repeat (Call {| offset := 18 |} [VNum 123]) 3) in
  invocations s' = 1 /\ rs = repeat (Ok 264%Z) 3.
Proof.
  exact (memoize_method_receiver TestClass_calc (relativeOpts (fun _ => 1000))
           {| offset := 18 |} [VNum 123] 264%Z 2 eq_refl).
Defined.

(** C6 (failure not memoized), as stated, fails for an awaitable that
    rejects: the wrapper stores the returned awaitable as-is, so the second
    call with the same arguments returns the same awaitable and does not
    invoke the callable again. *)
Lemma failure_not_memoized_counterexample :
  let (s', rs) := run (Memoize calc_async_rejecting) noOptions init
                    [Call tt [VNum 12]; Call tt [VNum 12]] in
  invocations s' = 1 /\
  rs = [Ok (FunAr.Rejected "boom"%string); Ok (FunAr.Rejected "boom"%string)] /\
  lookup (deriveKey [VNum 12]) (cache s') =
    Some {| value := FunAr.Rejected "boom"%string; watch := NoWatch |}.
Proof. vm_compute; repeat split. Qed.

(** C6 (failure not memoized, amended): on a miss, when the callable throws
    [err], the call fails with [err] unchanged, the cache is left as it was,
    and the next call with the same arguments invokes the callable again;
    when it returns a value [p] (for an asynchronous callable, its awaitable,
    whether it later rejects or not), the call returns [p] unchanged, [p] is
    stored as-is, and the next call with the same arguments returns [p]
    without invoking the callable. *)
Theorem failure_not_memoized {Recv E R : Type} (f : Recv -> list Val -> outcome E R)
    (o : Options) (s : @St R) (r : Recv) (a : list Val)
    (Hmiss : lookup (deriveKey a) (cache s) = None) :
  (forall err : E, f r a = Throw err ->
   let (s1, res) := step f o s (Call r a) in
   res = Some (Throw err) /\ cache s1 = cache s /\ invocations s1 = S (invocations s) /\
   step f o s1 (Call r a) =
     ({| cache := cache s; now := now s; evals := evals s;
         invocations := S (S (invocations s)) |}, Some (Throw err))) /\
  (forall p : R, f r a = Ok p ->
   let (s1, res) := step f o s (Call r a) in
   res = Some (Ok p) /\ invocations s1 = S (invocations s) /\
   lookup (deriveKey a) (cache s1) = Some {| value := p; watch := fst (arm o s) |} /\
   step f o s1 (Call r a) = (s1, Some (Ok p))).
Proof.
  split.
  - intros err Hf.
    cbn [step]; unfold call at 1; rewrite Hmiss, Hf.
    cbn [cache now evals invocations].
    split; [reflexivity|]; split; [reflexivity|]; split; [reflexivity|].
    unfold call; cbn [cache now evals invocations]; rewrite Hmiss, Hf; reflexivity.
  - intros p Hf.
    pose proof (call_miss_ok f o s r a p Hmiss Hf) as Hm.
    cbn [step]; destruct (call f o s r a) as [s1 r1].
    destruct Hm as (-> & Hinv & _ & Hc).
    assert (Hl : lookup (deriveKey a) (cache s1) = Some {| value := p; watch := fst (arm o s) |})
      by (rewrite Hc; apply lookup_store_same).
    split; [reflexivity|]; split; [exact Hinv|]; split; [exact Hl|].
    rewrite (call_hit f o s1 r a _ Hl); reflexivity.
Qed.

Lemma failure_not_memoized_witness :
  lookup (deriveKey [VNum 12]) (cache (@init (FunAr.settled string Z))) = None /\
  let (s1, res) := step (Memoize calc_async_rejecting) noOptions init (Call tt [VNum 12]) in
  res = Some (Ok (FunAr.Rejected "boom"%string)) /\ invocations s1 = 1 /\
  lookup (deriveKey [VNum 12]) (cache s1) =
    Some {| value := FunAr.Rejected "boom"%string; watch := NoWatch |} /\
  step (Memoize calc_async_rejecting) noOptions s1 (Call tt [VNum 12]) =
    (s1, Some (Ok (FunAr.Rejected "boom"%string))).
Proof.
  split; [reflexivity|].
  exact (proj2 (failure_not_memoized (Memoize calc_async_rejecting) noOptions init tt
                  [VNum 12] eq_refl) (FunAr.Rejected "boom"%string) eq_refl).
Defined.

(** C7 (hits are frame-preserving; expiry from creation): a hit returns the
    stored value and leaves the whole state (entry, watcher, invocation
    count) unchanged; a relative entry's timer is armed at creation for
    [now + evaluate()]; and a timer entry of a reachable state is purged by
    waiting exactly when its creation-time deadline is reached. *)
Theorem hit_frame_expiry_from_creation {Recv E R : Type} (f : Recv -> list Val -> outcome E R)
    (o : Options) :
  (forall (s : @St R) r a e, lookup (deriveKey a) (cache s) = Some e ->
     step f o s (Call r a) = (s, Some (Ok (value e)))) /\
  (forall evaluate (s : @St R) r a v,
     lookup (deriveKey a) (cache s) = None -> f r a = Ok v ->
     lookup (deriveKey a) (cache (fst (step f (relativeOpts evaluate) s (Call r a)))) =
       Some {| value := v; watch := Timer (now s + evaluate (evals s)) |}) /\
  (forall evs d k e dl,
     let s := fst (run f o init evs) in
     lookup k (cache s) = Some e -> watch e = Timer dl ->
     (lookup k (cache (wait s d)) = None <-> dl <= now s + d)).
Proof.
  split; [|split].
  - intros s r a e Hl; cbn [step]; rewrite (call_hit f o s r a e Hl); reflexivity.
  - intros evaluate s r a v Hmiss Hf.
    pose proof (call_miss_ok f (relativeOpts evaluate) s r a v Hmiss Hf) as Hm.
    cbn [step]; destruct (call f (relativeOpts evaluate) s r a) as [s1 r1].
    destruct Hm as (_ & _ & _ & Hc); cbn [fst]; rewrite Hc.
    apply lookup_store_same.
  - cbv zeta; intros evs d k e dl Hl Hw.
    set (s := fst (run f o init evs)) in *.
    destruct (Nat.leb dl (now s + d)) eqn:Hle.
    + split; [intros _; apply Nat.leb_le; exact Hle|intros _].
      apply (lookup_filter_drop _ k e); [apply wf_run, wf_init | exact Hl |].
      simpl; unfold expired; rewrite Hw, Hle; reflexivity.
    + split; [|intros H; apply Nat.leb_le in H; congruence].
      unfold wait; cbn [cache]; rewrite (lookup_filter_keep _ k e); [discriminate | exact Hl |].
      simpl; unfold expired; rewrite Hw, Hle; reflexivity.
Qed.

Lemma hit_frame_expiry_from_creation_witness :
  lookup (deriveKey [VNum 12])
    (cache (wait (fst (run (Memoize calc) (relativeOpts (fun _ => 100)) init
                         [Call tt [VNum 12]; Wait 50; Call tt [VNum 12]])) 49)) <> None.
Proof.
  intros H.
  apply (proj2 (proj2 (hit_frame_expiry_from_creation (Memoize calc)
                        (relativeOpts (fun _ => 100))))
           [Call tt [VNum 12]; Wait 50; Call tt [VNum 12]] 49 (deriveKey [VNum 12])
           {| value := 24%Z; watch := Timer 100 |} 100 eq_refl eq_refl) in H.
  simpl in H; lia.
Defined.

(** C8 (no expiration configured): without [cacheExpiration], an entry of
    a reachable state survives every sequence of events (waits of any
    length, settlements, other calls), and a later call with its arguments
    returns the stored value without invoking the function. *)
Theorem no_expiration_persists {E R : Type} (f : list Val -> outcome E R)
    (evs0 evs : list (@Event unit)) (a : list Val) (e : @Entry R)
    (Hl : lookup (deriveKey a) (cache (fst (run (Memoize f) noOptions init evs0))) = Some e) :
  let s' := fst (run (Memoize f) noOptions (fst (run (Memoize f) noOptions init evs0)) evs) in
  lookup (deriveKey a) (cache s') = Some e /\
  step (Memoize f) noOptions s' (Call tt a) = (s', Some (Ok (value e))).
Proof.
  cbv zeta.
  set (s := fst (run (Memoize f) noOptions init evs0)) in *.
  assert (Hinv : watchers_ok (fun w => w = NoWatch) s).
  { apply watchers_ok_run; [reflexivity | constructor]. }
  assert (Hkeep : lookup (deriveKey a) (cache (fst (run (Memoize f) noOptions s evs))) = Some e).
  { clearbody s. revert s Hinv Hl.
    induction evs as [|ev evs IH]; intros s0 Hinv0 Hl0; simpl; [exact Hl0|].
    pose proof (watchers_ok_lookup _ _ _ _ Hinv0 Hl0) as Hw.
    pose proof (watchers_ok_step (Memoize f) noOptions _ (fun _ => eq_refl) s0 ev Hinv0) as Hinv1.
    assert (Hl1 : lookup (deriveKey a) (cache (fst (step (Memoize f) noOptions s0 ev))) = Some e).
    { apply step_keeps_entry; [exact Hl0|].
      destruct ev; unfold expired; rewrite ?Hw; simpl; [exact I | reflexivity | reflexivity]. }
    destruct (step (Memoize f) noOptions s0 ev) as [s1 r1]; simpl in Hinv1, Hl1.
    specialize (IH s1 Hinv1 Hl1); destruct (run (Memoize f) noOptions s1 evs); exact IH. }
  split; [exact Hkeep|].
  cbn [step]; rewrite (call_hit _ _ _ tt a e Hkeep); reflexivity.
Qed.

Lemma no_expiration_persists_witness :
  let s' := fst (run (Memoize calc) noOptions (fst (run (Memoize calc) noOptions init [Call tt [VNum 12]]))
                   [Wait 4000; Settle 0; Call tt [VNum 13]]) in
  lookup (deriveKey [VNum 12]) (cache s') = Some {| value := 24%Z; watch := NoWatch |} /\
  step (Memoize calc) noOptions s' (Call tt [VNum 12]) = (s', Some (Ok 24%Z)).
Proof.
  exact (no_expiration_persists calc [Call tt [VNum 12]] [Wait 4000; Settle 0; Call tt [VNum 13]]
           [VNum 12] {| value := 24%Z; watch := NoWatch |} eq_refl).
Defined.

End MemoClaims.

(* ------------------------------------------------------------------ *)
(** ** Properties of the array helpers *)

Module FunArClaims.

Import FunAr.

Section FindSeq.

Context {T E St : Type}.
Variable callback : St -> T -> nat -> list T -> settled E bool * St.

Lemma loop_stopped (input : list T) fuel i ei s :
  ei <> (-1)%Z -> findIndexSeq_loop callback input fuel i ei s = (Fulfilled ei, s, []).
Proof.
  intros Hne; destruct fuel as [|fuel]; simpl; [reflexivity|].
  replace (Z.eqb ei (-1)) with false by (symmetry; apply Z.eqb_neq; exact Hne).
  reflexivity.
Qed.

(** The loop, started with [elementIndex = -1] at index [i], invokes the
    callback on [i, i+1, ...] and stops after the first truthy result or
    the first rejection. *)
Lemma loop_spec (input : list T) fuel i s :
  i + fuel = List.length input ->
  let '(res, s', tr) := findIndexSeq_loop callback input fuel i (-1) s in
  map fst tr = seq i (List.length tr) /\
  ((res = Fulfilled (-1)%Z /\ i + List.length tr = List.length input /\ all_falsy tr = true) \/
   (exists pre j, tr = pre ++ [(j, Fulfilled true)] /\ all_falsy pre = true /\
      res = Fulfilled (Z.of_nat j) /\ j < List.length input) \/
   (exists pre j e, tr = pre ++ [(j, Rejected e)] /\ all_falsy pre = true /\
      res = Rejected e /\ j < List.length input)).
Proof.
  revert i s; induction fuel as [|fuel IH]; intros i s Hlen; simpl.
  - split; [reflexivity|]; left; repeat split; lia.
  - replace (Nat.ltb i (List.length input)) with true by (symmetry; apply Nat.ltb_lt; lia).
    simpl.
    destruct (nth_error input i) as [x|] eqn:Hx;
      [|apply nth_error_None in Hx; lia].
    destruct (callback s x i input) as [[found|e] s1].
    + destruct found.
      * rewrite loop_stopped by lia.
        split; [reflexivity|]; right; left.
        exists [], i; repeat split; lia.
      * specialize (IH (S i) s1 ltac:(lia)).
        destruct (findIndexSeq_loop callback input fuel (S i) (-1) s1) as [[res s2] tr].
        destruct IH as [Hseq [(Hr & Hl & Ha) | [(pre & j & Htr & Hpre & Hr & Hj)
                                               | (pre & j & e & Htr & Hpre & Hr & Hj)]]];
          (split; [simpl; rewrite Hseq; reflexivity|]).
        -- left; simpl; repeat split; [exact Hr | lia | exact Ha].
        -- right; left; exists ((i, Fulfilled false) :: pre), j; subst tr.
           repeat split; [exact Hpre | exact Hr | exact Hj].
        -- right; right; exists ((i, Fulfilled false) :: pre), j, e; subst tr.
           repeat split; [exact Hpre | exact Hr | exact Hj].
    + split; [reflexivity|]; right; right.
      exists [], i, e; repeat split; lia.
Qed.

(** In a trace whose indices count up from [0], the last index is the
    length of what precedes it. *)
Lemma trace_last_index {X : Type} (pre : list (nat * X)) (j : nat) (x : X) :
  map fst (pre ++ [(j, x)]) = seq 0 (List.length (pre ++ [(j, x)])) -> j = List.length pre.
Proof.
  rewrite map_app, length_app, seq_app; simpl.
  intros Hseq; apply app_inj_tail in Hseq; destruct Hseq as [_ Hj]; exact Hj.
Qed.

(** C9 ([FunAr.async.seq.find], amended): the callbacks are invoked one
    after the other on the indices [0, 1, 2, ...] in increasing order;
    either every one fulfils falsy, every index was tried and the result is
    [undefined]; or the invocations stop right after the first truthy
    result, at index [i], and the result is [input[i]], the element of the
    smallest index whose callback result is truthy; or they stop right
    after the first rejection, before any truthy result, and [find] rejects
    with its reason. *)
Theorem find_seq_first_truthy (input : list T) (s : St) :
  let '(res, s', tr) := find callback input s in
  map fst tr = seq 0 (List.length tr) /\
  ((res = Fulfilled None /\ List.length tr = List.length input /\ all_falsy tr = true) \/
   (exists pre x, tr = pre ++ [(List.length pre, Fulfilled true)] /\ all_falsy pre = true /\
      nth_error input (List.length pre) = Some x /\ res = Fulfilled (Some x)) \/
   (exists pre e, tr = pre ++ [(List.length pre, Rejected e)] /\ all_falsy pre = true /\
      List.length pre < List.length input /\ res = Rejected e)).
Proof.
  unfold find, findIndexSeq.
  pose proof (loop_spec input (List.length input) 0 s eq_refl) as H.
  destruct (findIndexSeq_loop callback input (List.length input) 0 (-1) s) as [[r s'] tr].
  destruct H as [Hseq [(Hr & Hl & Ha) | [(pre & j & Htr & Hpre & Hr & Hj)
                                        | (pre & j & e & Htr & Hpre & Hr & Hj)]]];
    split; try exact Hseq.
  - subst r; left; repeat split; [exact Hl | exact Ha].
  - right; left.
    subst tr; pose proof (trace_last_index pre j _ Hseq); subst j.
    destruct (nth_error input (List.length pre)) as [x|] eqn:Hx;
      [|apply nth_error_None in Hx; lia].
    exists pre, x; repeat split; [exact Hpre | exact Hx |].
    subst r.
    replace (Z.eqb (Z.of_nat (List.length pre)) (-1)) with false
      by (symmetry; apply Z.eqb_neq; lia).
    rewrite Nat2Z.id, Hx; reflexivity.
  - right; right.
    subst tr; pose proof (trace_last_index pre j _ Hseq); subst j.
    exists pre, e; subst r; repeat split; [exact Hpre | exact Hj].
Qed.

End FindSeq.

(** C9 ([FunAr.async.seq.find]), as stated, fails for a callback that
    rejects: on [[1; 2]] with a predicate rejecting on [1], [find] neither
    resolves to an element nor to [undefined] but rejects, and the callback
    of index [1], which would be truthy, is never invoked. *)
Lemma find_seq_rejection_counterexample :
  let '(res, _, tr) := find Fixtures.reject_on_one [1; 2] 0 in
  res = Rejected "one"%string /\ tr = [(0, @Rejected string bool "one"%string)] /\
  (forall v, res <> Fulfilled v).
Proof. simpl; split; [reflexivity|]; split; [reflexivity | discriminate]. Qed.

(** C10 ([FunAr.async.parallel.filter]): [filterResults.sort()] sorts the
    indices as strings, so on an array of 11 elements whose callbacks all
    resolve truthy (settling in index order) the result is
    [input[0], input[1], input[10], input[2], ..., input[9]], not the input
    order that a filter keeps. *)
Theorem parallel_filter_default_sort_order :
  parallel_filter (seq 0 11) (repeat true 11) (seq 0 11) =
    map Some [0; 1; 10; 2; 3; 4; 5; 6; 7; 8; 9] /\
  parallel_filter (seq 0 11) (repeat true 11) (seq 0 11) <>
    map Some (filter (fun _ => true) (seq 0 11)).
Proof. split; [reflexivity | discriminate]. Qed.

End FunArClaims.

(* ------------------------------------------------------------------ *)
(** ** Further properties of the array helpers *)

Module FunArMore.

Import FunAr.

Lemma array_reduce_ext {P T : Type} (f g : P -> T -> nat -> P) (acc : P) (l : list T) (i : nat) :
  (forall a x j, f a x j = g a x j) -> array_reduce f acc l i = array_reduce g acc l i.
Proof.
  intros H; revert acc i; induction l as [|x l IH]; intros acc i; simpl; [reflexivity|].
  rewrite H; apply IH.
Qed.

Section Chain.

Context {T E St A X : Type}.
Variable callback : St -> T -> nat -> list T -> settled E A * St.
Variable input : list T.
Variable g : X -> T -> A -> X.

Lemma chain_rejected (e : E) sl (items : list T) (i : nat) :
  array_reduce (chain_step (log_calls callback) input g) (Rejected e, sl) items i = (Rejected e, sl).
Proof.
  revert i; induction items as [|x items IH]; intros i; simpl; [reflexivity|].
  destruct sl; apply IH.
Qed.

(** A sequential chain invokes the callback on consecutive indices and
    stops right after the first rejection. *)
Lemma chain_log (items : list T) : forall (i0 : nat) (a0 : X) (s : St) log0,
  match array_reduce (chain_step (log_calls callback) input g)
          (Fulfilled a0, (s, log0)) items i0 with
  | (p, (_, log)) =>
      exists L, log = log0 ++ L /\ map fst L = seq i0 (List.length L) /\
      ((exists vs, map snd L = map Fulfilled vs /\ List.length L = List.length items /\
                   p = Fulfilled (fold_values g a0 items vs)) \/
       (exists vs e, map snd L = map Fulfilled vs ++ [Rejected e] /\ p = Rejected e))
  end.
Proof.
  induction items as [|x items IH]; intros i0 a0 s log0; simpl.
  - exists []; rewrite app_nil_r; split; [reflexivity|]; split; [reflexivity|].
    left; exists []; repeat split.
  - destruct (callback s x i0 input) as [r s1] eqn:Hcb; simpl.
    destruct r as [v|e]; cbv beta iota delta [then_].
    + specialize (IH (S i0) (g a0 x v) s1 (log0 ++ [(i0, Fulfilled v)])).
      destruct (array_reduce (chain_step (log_calls callback) input g)
                  (Fulfilled (g a0 x v), (s1, log0 ++ [(i0, Fulfilled v)])) items (S i0))
        as [p [s' log]].
      cbv beta iota in IH |- *.
      destruct IH as (L & HL & Hf & [(vs & Hs & Hl & Hp) | (vs & e & Hs & Hp)]).
      * exists ((i0, Fulfilled v) :: L); rewrite HL, <- app_assoc; split; [reflexivity|].
        split; [simpl; rewrite Hf; reflexivity|].
        left; exists (v :: vs); simpl; rewrite Hs; repeat split; [lia | exact Hp].
      * exists ((i0, Fulfilled v) :: L); rewrite HL, <- app_assoc; split; [reflexivity|].
        split; [simpl; rewrite Hf; reflexivity|].
        right; exists (v :: vs), e; simpl; rewrite Hs; split; [reflexivity | exact Hp].
    + rewrite chain_rejected.
      exists [(i0, Rejected e)]; split; [reflexivity|]; split; [reflexivity|].
      right; exists [], e; split; reflexivity.
Qed.

End Chain.

Lemma fold_values_append {T A : Type} (acc : list A) (items : list T) (vs : list A) :
  List.length vs = List.length items ->
  fold_values (fun acc _ v => acc ++ [v]) acc items vs = acc ++ vs.
Proof.
  revert acc vs; induction items as [|x items IH]; intros acc [|v vs] Hl; simpl in *;
    try lia; [rewrite app_nil_r; reflexivity|].
  rewrite IH by lia; rewrite <- app_assoc; reflexivity.
Qed.

Lemma fold_values_keep {T : Type} (acc : list T) (items : list T) (bs : list bool) :
  fold_values (fun acc item b => if negb b then acc else acc ++ [item]) acc items bs =
  acc ++ keep items bs.
Proof.
  revert acc bs; induction items as [|x items IH]; intros acc [|b bs]; simpl;
    try (rewrite app_nil_r; reflexivity).
  rewrite IH; destruct b; simpl; [rewrite <- app_assoc; reflexivity | reflexivity].
Qed.

Lemma last_default {A : Type} (l : list A) (d d' : A) :
  l <> [] -> last l d = last l d'.
Proof.
  intros Hne; induction l as [|x l IH]; [congruence|].
  destruct l as [|y l]; [reflexivity|]; apply IH; discriminate.
Qed.

Lemma fold_values_last {T A : Type} (acc : option A) (items : list T) (vs : list A) :
  List.length vs = List.length items ->
  fold_values (fun _ _ v => Some v) acc items vs = last (map Some vs) acc.
Proof.
  revert acc vs; induction items as [|x items IH]; intros acc [|v vs] Hl; simpl in *;
    try lia; [reflexivity|].
  rewrite IH by lia; destruct vs; [reflexivity|].
  apply last_default; discriminate.
Qed.

(** [FunAr.async.seq.map] invokes the callbacks one after the other on the
    indices 0, 1, 2, ... in order.  If every promise fulfils, each index is
    invoked once and the result is the list of values in index order;
    otherwise no callback runs after the first rejection and the result
    rejects with its reason. *)
Theorem seq_map_sequential {T E St A : Type} (callback : St -> T -> nat -> list T -> settled E A * St)
    (input : list T) (s : St) :
  match seq_map (log_calls callback) input (s, []) with
  | (p, (_, log)) =>
      map fst log = seq 0 (List.length log) /\
      ((exists vs, map snd log = map Fulfilled vs /\ List.length log = List.length input /\
                   p = Fulfilled vs) \/
       (exists vs e, map snd log = map Fulfilled vs ++ [Rejected e] /\ p = Rejected e))
  end.
Proof.
  unfold seq_map.
  rewrite (array_reduce_ext _ (chain_step (log_calls callback) input (fun acc _ v => acc ++ [v])))
    by (intros [[a|e] sl] x j; reflexivity).
  pose proof (chain_log callback input (fun acc _ v => acc ++ [v]) input 0 [] s []) as H.
  destruct (array_reduce _ _ input 0) as [p [s' log]].
  destruct H as (L & -> & Hf & [(vs & Hs & Hl & Hp) | (vs & e & Hs & Hp)]).
  - split; [exact Hf|]; left; exists vs; split; [exact Hs|]; split; [exact Hl|].
    rewrite Hp, fold_values_append; [reflexivity|].
    rewrite <- Hl, <- (length_map snd L), Hs, length_map; reflexivity.
  - split; [exact Hf|]; right; exists vs, e; split; [exact Hs | exact Hp].
Qed.

(** [FunAr.async.seq.filter] invokes the callbacks one after the other on
    the indices 0, 1, 2, ... in order.  If every promise fulfils, the result
    holds exactly the elements whose callback resolved truthy, in input
    order; otherwise no callback runs after the first rejection and the
    result rejects with its reason. *)
Theorem seq_filter_sequential {T E St : Type} (callback : St -> T -> nat -> list T -> settled E bool * St)
    (input : list T) (s : St) :
  match seq_filter (log_calls callback) input (s, []) with
  | (p, (_, log)) =>
      map fst log = seq 0 (List.length log) /\
      ((exists bs, map snd log = map Fulfilled bs /\ List.length log = List.length input /\
                   p = Fulfilled (keep input bs)) \/
       (exists bs e, map snd log = map Fulfilled bs ++ [Rejected e] /\ p = Rejected e))
  end.
Proof.
  unfold seq_filter.
  rewrite (array_reduce_ext _ (chain_step (log_calls callback) input
             (fun acc item b => if negb b then acc else acc ++ [item])))
    by (intros [[a|e] sl] x j; reflexivity).
  pose proof (chain_log callback input (fun acc item b => if negb b then acc else acc ++ [item])
                input 0 [] s []) as H.
  destruct (array_reduce _ _ input 0) as [p [s' log]].
  destruct H as (L & -> & Hf & [(bs & Hs & Hl & Hp) | (bs & e & Hs & Hp)]).
  - split; [exact Hf|]; left; exists bs; split; [exact Hs|]; split; [exact Hl|].
    rewrite Hp, fold_values_keep; reflexivity.
  - split; [exact Hf|]; right; exists bs, e; split; [exact Hs | exact Hp].
Qed.

(** [FunAr.async.seq.forEach] invokes the callbacks one after the other on
    the indices 0, 1, 2, ... in order.  If every promise fulfils, each index
    is invoked once and the returned promise (typed [Promise<void>])
    resolves to the last callback's value, [undefined] only for an empty
    array; otherwise no callback runs after the first rejection and the
    result rejects with its reason. *)
Theorem seq_forEach_sequential {T E St A : Type}
    (callback : St -> T -> nat -> list T -> settled E A * St) (input : list T) (s : St) :
  match seq_forEach (log_calls callback) input (s, []) with
  | (p, (_, log)) =>
      map fst log = seq 0 (List.length log) /\
      ((exists vs, map snd log = map Fulfilled vs /\ List.length log = List.length input /\
                   p = Fulfilled (last (map Some vs) None)) \/
       (exists vs e, map snd log = map Fulfilled vs ++ [Rejected e] /\ p = Rejected e))
  end.
Proof.
  unfold seq_forEach.
  rewrite (array_reduce_ext _ (chain_step (log_calls callback) input (fun _ _ v => Some v)))
    by (intros [[a|e] sl] x j; reflexivity).
  pose proof (chain_log callback input (fun (_ : option A) _ v => Some v) input 0 None s []) as H.
  destruct (array_reduce _ _ input 0) as [p [s' log]].
  destruct H as (L & -> & Hf & [(vs & Hs & Hl & Hp) | (vs & e & Hs & Hp)]).
  - split; [exact Hf|]; left; exists vs; split; [exact Hs|]; split; [exact Hl|].
    rewrite Hp, fold_values_last; [reflexivity|].
    rewrite <- Hl, <- (length_map snd L), Hs, length_map; reflexivity.
  - split; [exact Hf|]; right; exists vs, e; split; [exact Hs | exact Hp].
Qed.

(** The chain of [FunAr.async.seq.reduce] with a callback that always
    fulfils, from index [i] with index offset [off]: [f] gives the value the
    callback's promise fulfils with and the state it leaves. *)
Lemma reduce_chain_fulfilling {W St E : Type}
    (callback : St -> option W -> option W -> nat -> settled E (option W) * St)
    (f : option W * St -> option W -> nat -> option W * St)
    (Hf : forall s acc item index,
        callback s acc item index = (Fulfilled (fst (f (acc, s) item index)), snd (f (acc, s) item index)))
    (off : nat) (l : list (option W)) : forall (acc : option W) (s : St) (i : nat),
  array_reduce (fun '(promise, s) item index =>
      then_ promise (fun acc s => callback s acc item (index + off)) s)
    (Fulfilled acc, s) l i =
  let '(acc', s') := array_reduce f (acc, s) l (i + off) in (Fulfilled acc', s').
Proof.
  induction l as [|x l IH]; intros acc s i; simpl; [reflexivity|].
  rewrite Hf, IH; simpl.
  destruct (f (acc, s) x (i + off)); reflexivity.
Qed.

(** [FunAr.async.seq.reduce] with a callback that always fulfils (its
    promise fulfils with the first component of [f (acc, state) item index]
    and it leaves the state in the second) computes what
    [Array.prototype.reduce] computes with [f] over the accumulator and the
    state: from the initial value over the whole array with indices
    0, 1, ..., or, without one, from the first element over the rest with
    indices 1, 2, ....  Unlike [Array.prototype.reduce], an empty array with
    no initial value does not throw: the result resolves to [undefined]. *)
Theorem seq_reduce_fulfilling {W St E : Type}
    (callback : St -> option W -> option W -> nat -> settled E (option W) * St)
    (f : option W * St -> option W -> nat -> option W * St)
    (Hf : forall s acc item index,
        callback s acc item index = (Fulfilled (fst (f (acc, s) item index)), snd (f (acc, s) item index)))
    (input : list (option W)) (initialValue : option W) (s : St) :
  seq_reduce callback input initialValue s =
  let '(acc, s') := match initialValue with
                    | Some v => array_reduce f (Some v, s) input 0
                    | None => match input with
                              | [] => (None, s)
                              | x :: xs => array_reduce f (x, s) xs 1
                              end
                    end in
  (Fulfilled acc, s').
Proof.
  unfold seq_reduce; destruct initialValue as [v|].
  - exact (reduce_chain_fulfilling callback f Hf 0 input (Some v) s 0).
  - destruct input as [|x xs]; [reflexivity|].
    exact (reduce_chain_fulfilling callback f Hf 1 xs x s 0).
Qed.

(** [FunAr.async.seq.reduce] without an initial value on an array of at
    most one element never invokes the callback: it resolves to the only
    element, or to [undefined] for an empty array, whatever the callback. *)
Theorem seq_reduce_short {W St E : Type}
    (callback : St -> option W -> option W -> nat -> settled E (option W) * St)
    (input : list (option W)) (s : St) :
  List.length input <= 1 ->
  seq_reduce callback input None s = (Fulfilled (hd None input), s).
Proof.
  intros Hl; unfold seq_reduce.
  destruct input as [|x [|y l]]; simpl in *; [reflexivity | reflexivity | lia].
Qed.

(** [FunAr.async.seq.findIndex] invokes the callbacks one after the other on
    the indices 0, 1, 2, ... in order.  It resolves to [-1] exactly when
    every callback fulfilled falsy, after trying every index; it resolves to
    the index of the first truthy callback when one fulfils truthy before any
    rejects, and no callback runs after it; otherwise it rejects with the
    reason of the first rejection, and no callback runs after it. *)
Theorem findIndexSeq_first_truthy {T E St : Type}
    (callback : St -> T -> nat -> list T -> settled E bool * St) (input : list T) (s : St) :
  let '(index, s', tr) := findIndexSeq callback input s in
  map fst tr = seq 0 (List.length tr) /\
  ((index = Fulfilled (-1)%Z /\ List.length tr = List.length input /\ all_falsy tr = true) \/
   (exists pre, tr = pre ++ [(List.length pre, Fulfilled true)] /\ all_falsy pre = true /\
      index = Fulfilled (Z.of_nat (List.length pre)) /\ List.length pre < List.length input) \/
   (exists pre e, tr = pre ++ [(List.length pre, Rejected e)] /\ all_falsy pre = true /\
      index = Rejected e /\ List.length pre < List.length input)).
Proof.
  unfold findIndexSeq.
  pose proof (FunArClaims.loop_spec callback input (List.length input) 0 s eq_refl) as H.
  destruct (findIndexSeq_loop callback input (List.length input) 0 (-1) s) as [[index s'] tr].
  destruct H as [Hseq [(Hr & Hl & Ha) | [(pre & j & Htr & Hpre & Hr & Hj)
                                        | (pre & j & e & Htr & Hpre & Hr & Hj)]]];
    split; try exact Hseq.
  - left; repeat split; [exact Hr | exact Hl | exact Ha].
  - right; left; subst tr.
    pose proof (FunArClaims.trace_last_index pre j _ Hseq); subst j.
    exists pre; repeat split; [exact Hpre | exact Hr | exact Hj].
  - right; right; subst tr.
    pose proof (FunArClaims.trace_last_index pre j _ Hseq); subst j.
    exists pre, e; repeat split; [exact Hpre | exact Hr | exact Hj].
Qed.

(** *** The parallel helpers *)

Section Invoke.

Context {T E A St : Type}.
Variable callback : St -> T -> nat -> list T -> settled E A * St.
Variable input : list T.

(** [input.reduce] / [input.forEach] invoke every callback synchronously,
    once each, in index order. *)
Lemma invoke_all_log (items : list T) : forall (i : nat) (s : St) log0,
  let (rs, st) := invoke_all (log_calls callback) input items i (s, log0) in
  exists s' L, st = (s', log0 ++ L) /\ map fst L = seq i (List.length items) /\ map snd L = rs.
Proof.
  induction items as [|x items IH]; intros i s log0; simpl.
  - exists s, []; rewrite app_nil_r; repeat split.
  - destruct (callback s x i input) as [r s1] eqn:Hcb.
    specialize (IH (S i) s1 (log0 ++ [(i, r)])).
    destruct (invoke_all (log_calls callback) input items (S i) (s1, log0 ++ [(i, r)]))
      as [rs st].
    destruct IH as (s' & L & -> & Hf & Hs).
    exists s', ((i, r) :: L); rewrite <- app_assoc; repeat split; simpl;
      [rewrite Hf | rewrite Hs]; reflexivity.
Qed.

End Invoke.

Section Settle.

Context {E A : Type}.

Lemma first_rejection_in (promises : list (settled E A)) (schedule : list nat) (e : E) :
  first_rejection promises schedule = Some e -> In (Rejected e) promises.
Proof.
  induction schedule as [|i sch IH]; simpl; [discriminate|].
  destruct (nth_error promises i) as [[v|e']|] eqn:Hi; try exact IH.
  intros [= <-]; exact (nth_error_In _ _ Hi).
Qed.

Lemma first_rejection_none (promises : list (settled E A)) (schedule : list nat) :
  first_rejection promises schedule = None ->
  forall i e, In i schedule -> nth_error promises i <> Some (Rejected e).
Proof.
  induction schedule as [|i sch IH]; simpl; [tauto|].
  destruct (nth_error promises i) as [[v|e']|] eqn:Hi; try discriminate;
    intros Hn j e [<- | Hj]; try (rewrite Hi; discriminate); exact (IH Hn j e Hj).
Qed.

Lemma all_fulfilled (promises : list (settled E A)) :
  (forall i e, nth_error promises i <> Some (Rejected e)) ->
  exists vs, promises = map Fulfilled vs.
Proof.
  induction promises as [|p ps IH]; intros H; [exists []; reflexivity|].
  destruct p as [v|e]; [|exfalso; exact (H 0 e eq_refl)].
  destruct IH as [vs ->]; [intros i e; exact (H (S i) e)|].
  exists (v :: vs); reflexivity.
Qed.

(** Under a settlement order covering every index, [Promise.all] fulfils
    exactly when no promise rejects. *)
Lemma first_rejection_none_all (promises : list (settled E A)) (schedule : list nat) :
  Permutation schedule (seq 0 (List.length promises)) ->
  first_rejection promises schedule = None ->
  exists vs, promises = map Fulfilled vs.
Proof.
  intros Hp Hn; apply all_fulfilled; intros i e Hi.
  assert (Hlt : i < List.length promises)
    by (apply nth_error_Some; rewrite Hi; discriminate).
  refine (first_rejection_none promises schedule Hn i e _ Hi).
  apply (Permutation_in _ (Permutation_sym Hp)), in_seq; lia.
Qed.

End Settle.

Lemma length_array_set {X : Type} (l : list X) (i : nat) (x : X) :
  List.length (array_set l i x) = List.length l.
Proof.
  revert i; induction l as [|y l IH]; intros [|i]; simpl; auto.
Qed.

Lemma nth_error_array_set_same {X : Type} (l : list X) (i : nat) (x : X) :
  i < List.length l -> nth_error (array_set l i x) i = Some x.
Proof.
  revert i; induction l as [|y l IH]; intros [|i] Hi; simpl in *; try lia; auto.
  apply IH; lia.
Qed.

Lemma nth_error_array_set_other {X : Type} (l : list X) (i j : nat) (x : X) :
  i <> j -> nth_error (array_set l i x) j = nth_error l j.
Proof.
  revert i j; induction l as [|y l IH]; intros [|i] [|j] Hij; simpl; auto; try lia.
Qed.

(** The [newAr[index] = response] assignments, in settlement order. *)
Lemma fill_newAr {E A : Type} (vs : list A) (schedule : list nat) :
  forall (newAr : list (option A)), List.length newAr = List.length vs ->
  forall j, nth_error (fold_left (fun newAr index =>
                 match nth_error (map (@Fulfilled E A) vs) index with
                 | Some (Fulfilled response) => array_set newAr index (Some response)
                 | _ => newAr
                 end) schedule newAr) j =
            if existsb (Nat.eqb j) schedule then nth_error (map Some vs) j
            else nth_error newAr j.
Proof.
  induction schedule as [|i sch IH]; intros newAr Hl j; simpl; [reflexivity|].
  rewrite nth_error_map.
  destruct (nth_error vs i) as [v|] eqn:Hv; simpl.
  - assert (Hi : i < List.length vs) by (apply nth_error_Some; rewrite Hv; discriminate).
    rewrite IH by (rewrite length_array_set; exact Hl).
    destruct (existsb (Nat.eqb j) sch); [rewrite orb_true_r; reflexivity|].
    rewrite orb_false_r; destruct (Nat.eqb_spec j i) as [-> | Hne].
    + rewrite nth_error_array_set_same by lia; rewrite nth_error_map, Hv; reflexivity.
    + apply nth_error_array_set_other; congruence.
  - rewrite IH by exact Hl.
    destruct (existsb (Nat.eqb j) sch); [rewrite orb_true_r; reflexivity|].
    rewrite orb_false_r; destruct (Nat.eqb_spec j i) as [-> | Hne]; [|reflexivity].
    apply nth_error_None in Hv.
    rewrite nth_error_map, (proj2 (nth_error_None vs i) Hv),
      (proj2 (nth_error_None newAr i)) by lia; reflexivity.
Qed.


(** [FunAr.async.parallel.map], for any order in which the promises settle:
    every callback is invoked, synchronously, once per index and in index
    order, even when one of them rejects.  The result fulfils exactly when
    every promise fulfils, with the values in index order (no hole of
    [new Array(input.length)] is left); otherwise it rejects with the reason
    of one of the rejected promises. *)
Theorem parallel_map_all_invoked {T E A St : Type}
    (callback : St -> T -> nat -> list T -> settled E A * St)
    (input : list T) (s : St) (schedule : list nat) :
  Permutation schedule (seq 0 (List.length input)) ->
  match parallel_map (log_calls callback) input (s, []) schedule with
  | (p, (_, log)) =>
      map fst log = seq 0 (List.length input) /\
      match p with
      | Fulfilled newAr => exists vs, map snd log = map Fulfilled vs /\ newAr = map Some vs
      | Rejected e => In (Rejected e) (map snd log)
      end
  end.
Proof.
  intros Hp; unfold parallel_map.
  pose proof (invoke_all_log callback input input 0 s []) as H.
  destruct (invoke_all (log_calls callback) input input 0 (s, [])) as [promises st].
  destruct H as (s' & L & -> & Hf & Hs); simpl.
  assert (Hlen : List.length promises = List.length input)
    by (rewrite <- Hs, length_map, <- (length_map fst L), Hf, length_seq; reflexivity).
  split; [exact Hf|].
  destruct (first_rejection promises schedule) as [e|] eqn:Hfr.
  - rewrite Hs; exact (first_rejection_in promises schedule e Hfr).
  - rewrite <- Hlen in Hp.
    destruct (first_rejection_none_all promises schedule Hp Hfr) as [vs ->].
    exists vs; split; [exact Hs|].
    rewrite length_map in Hlen; apply nth_error_ext; intros j.
    rewrite fill_newAr by (rewrite repeat_length; symmetry; exact Hlen).
    destruct (existsb (Nat.eqb j) schedule) eqn:He; [reflexivity|].
    assert (Hj : List.length input <= j).
    { destruct (Nat.lt_ge_cases j (List.length input)) as [Hj|Hj]; [|exact Hj].
      exfalso; assert (Hin : In j schedule)
        by (apply (Permutation_in _ (Permutation_sym Hp)), in_seq; rewrite length_map; lia).
      assert (Hex : existsb (Nat.eqb j) schedule = true)
        by (apply existsb_exists; exists j; split; [exact Hin | apply Nat.eqb_refl]).
      congruence. }
    rewrite (proj2 (nth_error_None _ j)) by (rewrite repeat_length; exact Hj).
    symmetry; apply nth_error_None; rewrite length_map; lia.
Qed.

(** The synchronous phase of [parallel.forEach] invokes the callbacks in
    index order, once each, until the first synchronous throw. *)
Lemma invoke_until_throw_log {T E A St : Type}
    (callback : St -> T -> nat -> list T -> invocation E A * St) (input : list T)
    (items : list T) : forall (i : nat) (s : St) log0,
  let (r, st) := invoke_until_throw (log_invocations callback) input items i (s, log0) in
  exists s' L, st = (s', log0 ++ L) /\ map fst L = seq i (List.length L) /\
    ((exists ps, r = inl ps /\ map snd L = map Returns ps /\ List.length L = List.length items) \/
     (exists ps e, r = inr e /\ map snd L = map Returns ps ++ [Throws e])).
Proof.
  induction items as [|x items IH]; intros i s log0; simpl.
  - exists s, []; rewrite app_nil_r; split; [reflexivity|]; split; [reflexivity|].
    left; exists []; repeat split.
  - destruct (callback s x i input) as [[p|e] s1] eqn:Hcb.
    + specialize (IH (S i) s1 (log0 ++ [(i, Returns p)])).
      destruct (invoke_until_throw (log_invocations callback) input items (S i)
                  (s1, log0 ++ [(i, Returns p)])) as [rest st].
      destruct IH as (s' & L & -> & Hf & [(ps & -> & Hs & Hl) | (ps & e & -> & Hs)]);
        exists s', ((i, Returns p) :: L); rewrite <- app_assoc;
        (split; [reflexivity|]); (split; [simpl; rewrite Hf; reflexivity|]).
      * left; exists (p :: ps); simpl; rewrite Hs; repeat split; lia.
      * right; exists (p :: ps), e; simpl; rewrite Hs; split; reflexivity.
    + exists s1, [(i, Throws e)]; split; [reflexivity|]; split; [reflexivity|].
      right; exists [], e; split; reflexivity.
Qed.

(** [FunAr.async.parallel.forEach] invokes the callbacks synchronously, in
    index order.  A callback that throws synchronously (rather than
    returning a rejecting promise) aborts [input.reduce]: no later callback
    is invoked and the result rejects with the thrown error.  Otherwise every
    callback is invoked once and, for any order in which the returned
    promises settle, the result resolves exactly when every promise fulfils,
    and otherwise rejects with the reason of one of the rejected promises. *)
Theorem parallel_forEach_all_invoked {T E A St : Type}
    (callback : St -> T -> nat -> list T -> invocation E A * St)
    (input : list T) (s : St) (schedule : list nat) :
  Permutation schedule (seq 0 (List.length input)) ->
  match parallel_forEach (log_invocations callback) input (s, []) schedule with
  | (p, (_, log)) =>
      map fst log = seq 0 (List.length log) /\
      ((exists ps, map snd log = map Returns ps /\ List.length log = List.length input /\
                   match p with
                   | Fulfilled _ => exists vs, ps = map Fulfilled vs
                   | Rejected e => In (Rejected e) ps
                   end) \/
       (exists ps e, map snd log = map Returns ps ++ [Throws e] /\ p = Rejected e))
  end.
Proof.
  intros Hp; unfold parallel_forEach.
  pose proof (invoke_until_throw_log callback input input 0 s []) as H.
  destruct (invoke_until_throw (log_invocations callback) input input 0 (s, [])) as [r st].
  destruct H as (s' & L & -> & Hf & [(ps & -> & Hs & Hl) | (ps & e & -> & Hs)]); simpl;
    (split; [exact Hf|]).
  - left; exists ps; split; [exact Hs|]; split; [exact Hl|].
    assert (Hlen : List.length ps = List.length input)
      by (rewrite <- Hl, <- (length_map snd L), Hs, length_map; reflexivity).
    destruct (first_rejection ps schedule) as [e|] eqn:Hfr.
    + exact (first_rejection_in ps schedule e Hfr).
    + rewrite <- Hlen in Hp; exact (first_rejection_none_all ps schedule Hp Hfr).
  - right; exists ps, e; split; [exact Hs | reflexivity].
Qed.

Lemma collect_filter (responses : list bool) (schedule : list nat) : forall acc,
  collect responses schedule acc = acc ++ filter (fun i => nth i responses false) schedule.
Proof.
  induction schedule as [|i sch IH]; intros acc; simpl; [rewrite app_nil_r; reflexivity|].
  rewrite IH; destruct (nth i responses false); [rewrite <- app_assoc|]; reflexivity.
Qed.

Lemma filter_permutation {X : Type} (f : X -> bool) (l l' : list X) :
  Permutation l l' -> Permutation (filter f l) (filter f l').
Proof.
  induction 1 as [|x l l' _ IH|x y l|l l' l'' _ IH1 _ IH2]; simpl.
  - constructor.
  - destruct (f x); [constructor|]; exact IH.
  - destruct (f x), (f y); try constructor; reflexivity.
  - exact (Permutation_trans IH1 IH2).
Qed.

Lemma sort_insert_perm (x : nat) (l : list nat) : Permutation (sort_insert x l) (x :: l).
Proof.
  induction l as [|y l IH]; simpl; [reflexivity|].
  destruct (default_sort_lt x y); [reflexivity|].
  rewrite IH; constructor.
Qed.

Lemma default_sort_perm (l : list nat) : Permutation (default_sort l) l.
Proof.
  induction l as [|x l IH]; simpl; [reflexivity|].
  rewrite sort_insert_perm, IH; reflexivity.
Qed.

(** On the indices 0 to 9, the string order of their decimal renderings is
    the numeric order. *)
Lemma default_sort_lt_digits (a b : nat) :
  a < 10 -> b < 10 -> default_sort_lt a b = Nat.ltb a b.
Proof.
  intros Ha Hb.
  do 10 (destruct a as [|a]; [do 10 (destruct b as [|b]; [reflexivity|]); lia|]); lia.
Qed.

Lemma Forall_perm {X : Type} (P : X -> Prop) (l l' : list X) :
  Permutation l l' -> Forall P l' -> Forall P l.
Proof.
  intros Hp H; apply Forall_forall; intros x Hx.
  exact (proj1 (Forall_forall P l') H x (Permutation_in _ Hp Hx)).
Qed.

Lemma sort_insert_sorted (x : nat) (l : list nat) :
  x < 10 -> Forall (fun y => y < 10) l -> ~ In x l ->
  StronglySorted lt l -> StronglySorted lt (sort_insert x l).
Proof.
  induction l as [|y l IH]; intros Hx Hl Hn Hs; simpl.
  - repeat constructor.
  - inversion Hl as [|? ? Hy Hl']; subst.
    destruct (StronglySorted_inv Hs) as [Hs' Hys].
    rewrite default_sort_lt_digits by assumption.
    destruct (Nat.ltb_spec x y) as [Hxy|Hxy].
    + constructor; [exact Hs|]; constructor; [exact Hxy|].
      apply Forall_forall; intros z Hz; pose proof (proj1 (Forall_forall _ _) Hys z Hz); lia.
    + assert (Hne : x <> y) by (intros ->; apply Hn; left; reflexivity).
      constructor.
      * apply IH; [exact Hx | exact Hl' | intros Hin; apply Hn; right; exact Hin | exact Hs'].
      * apply (Forall_perm _ _ _ (sort_insert_perm x l)); constructor; [lia | exact Hys].
Qed.

Lemma default_sort_sorted (l : list nat) :
  Forall (fun y => y < 10) l -> NoDup l -> StronglySorted lt (default_sort l).
Proof.
  induction l as [|x l IH]; intros Hl Hd; simpl; [constructor|].
  inversion Hl as [|? ? Hx Hl']; inversion Hd as [|? ? Hn Hd']; subst.
  apply sort_insert_sorted; [exact Hx | | | exact (IH Hl' Hd')].
  - exact (Forall_perm _ _ _ (default_sort_perm l) Hl').
  - intros Hin; apply Hn; exact (Permutation_in _ (default_sort_perm l) Hin).
Qed.

Lemma sorted_perm_unique {X : Type} (R : X -> X -> Prop) (l1 l2 : list X) :
  (forall a b, R a b -> R b a -> False) ->
  StronglySorted R l1 -> StronglySorted R l2 -> Permutation l1 l2 -> l1 = l2.
Proof.
  intros Hasym; revert l2; induction l1 as [|a l1 IH]; intros l2 H1 H2 Hp.
  - symmetry; exact (Permutation_nil Hp).
  - destruct l2 as [|b l2]; [exfalso; exact (Permutation_nil_cons (Permutation_sym Hp))|].
    destruct (StronglySorted_inv H1) as [H1' Ha]; destruct (StronglySorted_inv H2) as [H2' Hb].
    assert (Ha2 : b = a \/ In a l2) by exact (Permutation_in a Hp (or_introl eq_refl)).
    destruct Ha2 as [<- | Ha2].
    + f_equal; apply IH; [exact H1' | exact H2' | exact (Permutation_cons_inv Hp)].
    + exfalso.
      assert (Hb1 : a = b \/ In b l1)
        by exact (Permutation_in b (Permutation_sym Hp) (or_introl eq_refl)).
      destruct Hb1 as [-> | Hb1].
      * exact (Hasym b b (proj1 (Forall_forall _ _) Hb b Ha2) (proj1 (Forall_forall _ _) Hb b Ha2)).
      * exact (Hasym a b (proj1 (Forall_forall _ _) Ha b Hb1) (proj1 (Forall_forall _ _) Hb a Ha2)).
Qed.

Lemma seq_sorted (start len : nat) : StronglySorted lt (seq start len).
Proof.
  revert start; induction len as [|len IH]; intros start; simpl; constructor; [apply IH|].
  apply Forall_forall; intros x Hx; apply in_seq in Hx; lia.
Qed.

Lemma filter_sorted {X : Type} (R : X -> X -> Prop) (f : X -> bool) (l : list X) :
  StronglySorted R l -> StronglySorted R (filter f l).
Proof.
  induction l as [|x l IH]; intros H; simpl; [constructor|].
  destruct (StronglySorted_inv H) as [H' Hx].
  destruct (f x); [constructor; [exact (IH H')|]|exact (IH H')].
  apply Forall_forall; intros y Hy; apply filter_In in Hy.
  exact (proj1 (Forall_forall _ _) Hx y (proj1 Hy)).
Qed.

Lemma map_nth_error_filter_seq {T : Type} (input : list T) (responses : list bool) :
  map (fun inputIndex => nth_error input inputIndex)
      (filter (fun i => nth i responses false) (seq 0 (List.length input))) =
  map Some (keep input responses).
Proof.
  revert responses; induction input as [|x input IH]; intros responses; [reflexivity|].
  simpl List.length; rewrite <- cons_seq, <- seq_shift.
  destruct responses as [|b bs].
  - simpl; rewrite filter_map_swap.
    assert (Hf : forall l, filter (fun i => nth (S i) [] false) l = []).
    { induction l as [|i l IHl]; simpl; [reflexivity | destruct i; exact IHl]. }
    rewrite Hf; reflexivity.
  - simpl; rewrite filter_map_swap.
    specialize (IH bs); destruct b; simpl; rewrite map_map; simpl; rewrite IH; reflexivity.
Qed.

(** After [await Promise.all(promises)] fulfilled with [responses], for any
    array length and settlement order: the result is a rearrangement of the
    elements whose response is truthy. *)
Lemma sorted_part_permutation {T : Type} (input : list T) (responses : list bool)
    (schedule : list nat) :
  Permutation schedule (seq 0 (List.length input)) ->
  Permutation (parallel_filter input responses schedule) (map Some (keep input responses)).
Proof.
  intros Hp; unfold parallel_filter; rewrite collect_filter; simpl.
  rewrite <- map_nth_error_filter_seq.
  apply Permutation_map.
  rewrite default_sort_perm; apply filter_permutation; exact Hp.
Qed.

(** After [await Promise.all(promises)] fulfilled with [responses], on an
    array of at most ten elements and for any settlement order: the result
    holds the elements whose response is truthy, in input order. *)
Lemma sorted_part_small {T : Type} (input : list T) (responses : list bool)
    (schedule : list nat) :
  List.length input <= 10 ->
  Permutation schedule (seq 0 (List.length input)) ->
  parallel_filter input responses schedule = map Some (keep input responses).
Proof.
  intros Hn Hp; unfold parallel_filter; rewrite collect_filter; simpl.
  rewrite <- map_nth_error_filter_seq; f_equal.
  set (f := fun i => nth i responses false).
  assert (Hperm : Permutation (filter f schedule) (filter f (seq 0 (List.length input))))
    by (apply filter_permutation; exact Hp).
  apply (sorted_perm_unique lt); [intros a b; lia| | |].
  - apply default_sort_sorted.
    + apply (Forall_perm _ _ _ Hperm), Forall_forall; intros x Hx.
      apply filter_In in Hx; destruct Hx as [Hx _]; apply in_seq in Hx; lia.
    + apply (Permutation_NoDup (Permutation_sym Hperm)), NoDup_filter, seq_NoDup.
  - apply filter_sorted, seq_sorted.
  - rewrite default_sort_perm; exact Hperm.
Qed.

(** *** The order of [Array.prototype.sort] on indices *)

Lemma string_compare_trans (s1 s2 s3 : string) :
  String.compare s1 s2 = Lt -> String.compare s2 s3 = Lt -> String.compare s1 s3 = Lt.
Proof.
  revert s2 s3; induction s1 as [|c1 s1 IH]; intros [|c2 s2] [|c3 s3]; simpl;
    try discriminate; try reflexivity.
  unfold Ascii.compare.
  destruct (N.compare_spec (N_of_ascii c1) (N_of_ascii c2)) as [H12|H12|H12];
  destruct (N.compare_spec (N_of_ascii c2) (N_of_ascii c3)) as [H23|H23|H23];
    try discriminate; intros A B.
  - rewrite H12, H23, N.compare_refl; exact (IH _ _ A B).
  - rewrite H12; rewrite (proj2 (N.compare_lt_iff _ _) H23); reflexivity.
  - rewrite <- H23; rewrite (proj2 (N.compare_lt_iff _ _) H12); reflexivity.
  - rewrite (proj2 (N.compare_lt_iff (N_of_ascii c1) (N_of_ascii c3))) by lia; reflexivity.
Qed.

(** [String(i)] is injective on indices: the decimal digits determine the
    number. *)
Lemma decimal_inj (a b : nat) : decimal a = decimal b -> a = b.
Proof.
  pose (parse := fix parse (v : nat) (str : string) : nat :=
                   match str with
                   | EmptyString => v
                   | String c str' => parse (v * 10 + (nat_of_ascii c - 48)) str'
                   end).
  assert (Hs : forall v c str, parse v (String c str) = parse (v * 10 + (nat_of_ascii c - 48)) str)
    by reflexivity.
  assert (Hp : forall fuel n acc, n < fuel -> parse 0 (decimal_aux fuel n acc) = parse n acc).
  { induction fuel as [|fuel IH]; intros n acc Hn; [lia|].
    assert (Hd : nat_of_ascii (ascii_of_nat (48 + n mod 10)) - 48 = n mod 10).
    { rewrite Ascii.nat_ascii_embedding; [lia|].
      pose proof (Nat.mod_upper_bound n 10); lia. }
    change (decimal_aux (S fuel) n acc) with
      (if Nat.ltb n 10 then String (ascii_of_nat (48 + n mod 10)) acc
       else decimal_aux fuel (n / 10) (String (ascii_of_nat (48 + n mod 10)) acc)).
    destruct (Nat.ltb_spec n 10) as [Hlt|Hge].
    - rewrite Hs, Hd, Nat.mod_small by exact Hlt; reflexivity.
    - rewrite IH by (pose proof (Nat.div_lt n 10); lia).
      rewrite Hs, Hd; f_equal.
      pose proof (Nat.div_mod_eq n 10); lia. }
  intros H; unfold decimal in H.
  change (parse a EmptyString = parse b EmptyString).
  rewrite <- (Hp (S a) a EmptyString), <- (Hp (S b) b EmptyString) by lia.
  rewrite H; reflexivity.
Qed.

Lemma dlt_trans (a b c : nat) : dlt a b -> dlt b c -> dlt a c.
Proof.
  unfold dlt, default_sort_lt, String.ltb.
  destruct (String.compare (decimal a) (decimal b)) eqn:Hab; try discriminate.
  destruct (String.compare (decimal b) (decimal c)) eqn:Hbc; try discriminate.
  rewrite (string_compare_trans _ _ _ Hab Hbc); reflexivity.
Qed.

Lemma dlt_asym (a b : nat) : dlt a b -> dlt b a -> False.
Proof.
  unfold dlt, default_sort_lt, String.ltb.
  rewrite (String.compare_antisym (decimal b) (decimal a)).
  destruct (String.compare (decimal a) (decimal b)); simpl; discriminate.
Qed.

Lemma dlt_total (a b : nat) : a <> b -> default_sort_lt a b = false -> dlt b a.
Proof.
  unfold dlt, default_sort_lt, String.ltb; intros Hne.
  rewrite (String.compare_antisym (decimal b) (decimal a)).
  destruct (String.compare (decimal a) (decimal b)) eqn:Hab; simpl; try discriminate;
    [|reflexivity].
  apply String.compare_eq_iff, decimal_inj in Hab; contradiction.
Qed.

Lemma sort_insert_dsorted (x : nat) (l : list nat) :
  ~ In x l -> StronglySorted dlt l -> StronglySorted dlt (sort_insert x l).
Proof.
  induction l as [|y l IH]; intros Hn Hs; simpl.
  - repeat constructor.
  - destruct (StronglySorted_inv Hs) as [Hs' Hys].
    destruct (default_sort_lt x y) eqn:Hxy.
    + constructor; [exact Hs|]; constructor; [exact Hxy|].
      apply Forall_forall; intros z Hz.
      exact (dlt_trans x y z Hxy (proj1 (Forall_forall _ _) Hys z Hz)).
    + assert (Hne : x <> y) by (intros ->; apply Hn; left; reflexivity).
      constructor.
      * apply IH; [intros Hin; apply Hn; right; exact Hin | exact Hs'].
      * apply (Forall_perm _ _ _ (sort_insert_perm x l)); constructor;
          [exact (dlt_total x y Hne Hxy) | exact Hys].
Qed.

Lemma default_sort_dsorted (l : list nat) : NoDup l -> StronglySorted dlt (default_sort l).
Proof.
  induction l as [|x l IH]; intros Hd; simpl; [constructor|].
  inversion Hd as [|? ? Hn Hd']; subst.
  apply sort_insert_dsorted; [|exact (IH Hd')].
  intros Hin; apply Hn; exact (Permutation_in _ (default_sort_perm l) Hin).
Qed.

(** [filterResults.sort()] orders a list of distinct indices the same way
    whatever order they were pushed in. *)
Lemma default_sort_perm_eq (l l' : list nat) :
  NoDup l -> Permutation l l' -> default_sort l = default_sort l'.
Proof.
  intros Hd Hp.
  apply (sorted_perm_unique dlt); [exact dlt_asym | exact (default_sort_dsorted l Hd) | |].
  - exact (default_sort_dsorted l' (Permutation_NoDup Hp Hd)).
  - rewrite !default_sort_perm; exact Hp.
Qed.

(** After [await Promise.all(promises)] fulfilled with [responses], for any
    array length: the result does not depend on the settlement order, since
    [filterResults.sort()] puts the pushed indices in one fixed order (the
    string order of their decimal renderings). *)
Lemma sorted_part_schedule_independent {T : Type} (input : list T)
    (responses : list bool) (schedule1 schedule2 : list nat) :
  Permutation schedule1 (seq 0 (List.length input)) ->
  Permutation schedule2 (seq 0 (List.length input)) ->
  parallel_filter input responses schedule1 = parallel_filter input responses schedule2.
Proof.
  intros H1 H2; unfold parallel_filter; rewrite !collect_filter; simpl; f_equal.
  apply default_sort_perm_eq.
  - apply NoDup_filter; exact (Permutation_NoDup (Permutation_sym H1) (seq_NoDup _ _)).
  - apply filter_permutation; rewrite H1, H2; reflexivity.
Qed.

(** *** The whole of [FunAr.async.parallel.filter] *)

Lemma length_invoke_all {T E A St : Type}
    (callback : St -> T -> nat -> list T -> settled E A * St) (input items : list T) :
  forall i s, List.length (fst (invoke_all callback input items i s)) = List.length items.
Proof.
  induction items as [|x items IH]; intros i s; simpl; [reflexivity|].
  destruct (callback s x i input) as [r s1].
  specialize (IH (S i) s1); destruct (invoke_all callback input items (S i) s1); simpl in *.
  rewrite IH; reflexivity.
Qed.

Lemma responses_fulfilled {E : Type} (bs : list bool) :
  map (fun p : settled E bool => match p with Fulfilled b => b | Rejected _ => false end)
      (map Fulfilled bs) = bs.
Proof. induction bs as [|b bs IH]; simpl; [reflexivity | rewrite IH; reflexivity]. Qed.

(** [FunAr.async.parallel.filter], for any array length and settlement
    order: every callback is invoked, synchronously, once per index and in
    index order.  When every promise fulfils, the result never loses,
    duplicates or invents an element: it is a rearrangement of the elements
    whose callback resolved truthy.  Otherwise it rejects with the reason of
    one of the rejected promises. *)
Theorem parallel_filter_async_permutation {T E St : Type}
    (callback : St -> T -> nat -> list T -> settled E bool * St)
    (input : list T) (s : St) (schedule : list nat) :
  Permutation schedule (seq 0 (List.length input)) ->
  match parallel_filter_async (log_calls callback) input (s, []) schedule with
  | (p, (_, log)) =>
      map fst log = seq 0 (List.length input) /\
      match p with
      | Fulfilled r => exists bs, map snd log = map Fulfilled bs /\
                                  Permutation r (map Some (keep input bs))
      | Rejected e => In (Rejected e) (map snd log)
      end
  end.
Proof.
  intros Hp; unfold parallel_filter_async.
  pose proof (invoke_all_log callback input input 0 s []) as H.
  destruct (invoke_all (log_calls callback) input input 0 (s, [])) as [promises st].
  destruct H as (s' & L & -> & Hf & Hs); simpl.
  assert (Hlen : List.length promises = List.length input)
    by (rewrite <- Hs, length_map, <- (length_map fst L), Hf, length_seq; reflexivity).
  split; [exact Hf|].
  destruct (first_rejection promises schedule) as [e|] eqn:Hfr.
  - rewrite Hs; exact (first_rejection_in promises schedule e Hfr).
  - pose proof Hp as Hp0; rewrite <- Hlen in Hp.
    destruct (first_rejection_none_all promises schedule Hp Hfr) as [bs ->].
    exists bs; split; [exact Hs|].
    rewrite responses_fulfilled; exact (sorted_part_permutation input bs schedule Hp0).
Qed.

(** [FunAr.async.parallel.filter] on an array of at most ten elements, for
    any settlement order: when every promise fulfils, the result holds the
    elements whose callback resolved truthy in input order, as
    [Array.prototype.filter] returns them; otherwise it rejects with the
    reason of one of the rejected promises. *)
Theorem parallel_filter_async_small {T E St : Type}
    (callback : St -> T -> nat -> list T -> settled E bool * St)
    (input : list T) (s : St) (schedule : list nat) :
  List.length input <= 10 ->
  Permutation schedule (seq 0 (List.length input)) ->
  match parallel_filter_async (log_calls callback) input (s, []) schedule with
  | (p, (_, log)) =>
      match p with
      | Fulfilled r => exists bs, map snd log = map Fulfilled bs /\ r = map Some (keep input bs)
      | Rejected e => In (Rejected e) (map snd log)
      end
  end.
Proof.
  intros Hn Hp; unfold parallel_filter_async.
  pose proof (invoke_all_log callback input input 0 s []) as H.
  destruct (invoke_all (log_calls callback) input input 0 (s, [])) as [promises st].
  destruct H as (s' & L & -> & Hf & Hs); simpl.
  assert (Hlen : List.length promises = List.length input)
    by (rewrite <- Hs, length_map, <- (length_map fst L), Hf, length_seq; reflexivity).
  destruct (first_rejection promises schedule) as [e|] eqn:Hfr.
  - rewrite Hs; exact (first_rejection_in promises schedule e Hfr).
  - pose proof Hp as Hp0; rewrite <- Hlen in Hp.
    destruct (first_rejection_none_all promises schedule Hp Hfr) as [bs ->].
    exists bs; split; [exact Hs|].
    rewrite responses_fulfilled; exact (sorted_part_small input bs schedule Hn Hp0).
Qed.

(** [FunAr.async.parallel.filter], for any array length: whether it
    fulfils or rejects does not depend on the order in which the callbacks'
    promises settle, and when it fulfils neither does its result; only the
    reason of a rejection (the first rejection to settle) can depend on that
    order. *)
Theorem parallel_filter_async_schedule_independent {T E St : Type}
    (callback : St -> T -> nat -> list T -> settled E bool * St)
    (input : list T) (s : St) (schedule1 schedule2 : list nat) :
  Permutation schedule1 (seq 0 (List.length input)) ->
  Permutation schedule2 (seq 0 (List.length input)) ->
  match fst (parallel_filter_async callback input s schedule1),
        fst (parallel_filter_async callback input s schedule2) with
  | Fulfilled r1, Fulfilled r2 => r1 = r2
  | Rejected _, Rejected _ => True
  | _, _ => False
  end.
Proof.
  intros H1 H2; unfold parallel_filter_async.
  pose proof (length_invoke_all callback input input 0 s) as Hlen.
  destruct (invoke_all callback input input 0 s) as [promises s1]; simpl in Hlen |- *.
  rewrite <- Hlen in H1, H2.
  assert (Hno : forall e sch, first_rejection promises sch = Some e ->
                forall sch', Permutation sch' (seq 0 (List.length promises)) ->
                first_rejection promises sch' <> None).
  { intros e sch He sch' Hp' Hn.
    destruct (first_rejection_none_all promises sch' Hp' Hn) as [bs ->].
    apply first_rejection_in, in_map_iff in He; destruct He as (b & Hb & _); discriminate. }
  destruct (first_rejection promises schedule1) as [e1|] eqn:Hf1;
  destruct (first_rejection promises schedule2) as [e2|] eqn:Hf2; try exact I.
  - exact (Hno e1 schedule1 Hf1 schedule2 H2 Hf2).
  - exact (Hno e2 schedule2 Hf2 schedule1 H1 Hf1).
  - destruct (first_rejection_none_all promises schedule1 H1 Hf1) as [bs ->].
    rewrite Hlen in H1, H2.
    rewrite responses_fulfilled.
    exact (sorted_part_schedule_independent input bs schedule1 schedule2 H1 H2).
Qed.

(** *** Witnesses *)

Lemma seq_reduce_short_witness :
  List.length [Some 7] <= 1 /\
  seq_reduce (fun (s : nat) (acc item : option nat) (index : nat) =>
                (@Rejected string _ "called"%string, S s)) [Some 7] None 0 =
  (Fulfilled (Some 7), 0).
Proof.
  split; [simpl; lia|].
  apply (seq_reduce_short _ [Some 7] 0); simpl; lia.
Defined.

Lemma parallel_map_all_invoked_witness :
  Permutation [1; 0; 2] (seq 0 (List.length [3; 1; 4])) /\
  match parallel_map (log_calls Fixtures.double_unless_one) [3; 1; 4] (0, []) [1; 0; 2] with
  | (p, (_, log)) =>
      map fst log = seq 0 (List.length [3; 1; 4]) /\
      match p with
      | Fulfilled newAr => exists vs, map snd log = map Fulfilled vs /\ newAr = map Some vs
      | Rejected e => In (Rejected e) (map snd log)
      end
  end.
Proof.
  split; [simpl; apply perm_swap|].
  apply (parallel_map_all_invoked Fixtures.double_unless_one [3; 1; 4] 0 [1; 0; 2]).
  simpl; apply perm_swap.
Defined.

Lemma parallel_forEach_all_invoked_witness :
  Permutation [1; 0; 2] (seq 0 (List.length [3; 1; 4])) /\
  match parallel_forEach (log_invocations Fixtures.throw_on_one) [3; 1; 4] (0, []) [1; 0; 2] with
  | (p, (_, log)) =>
      map fst log = seq 0 (List.length log) /\
      ((exists ps, map snd log = map Returns ps /\ List.length log = List.length [3; 1; 4] /\
                   match p with
                   | Fulfilled _ => exists vs, ps = map Fulfilled vs
                   | Rejected e => In (Rejected e) ps
                   end) \/
       (exists ps e, map snd log = map Returns ps ++ [Throws e] /\ p = Rejected e))
  end.
Proof.
  split; [simpl; apply perm_swap|].
  apply (parallel_forEach_all_invoked Fixtures.throw_on_one [3; 1; 4] 0 [1; 0; 2]).
  simpl; apply perm_swap.
Defined.

Lemma seq_reduce_fulfilling_witness :
  (forall (s : nat) (acc item : option nat) (index : nat),
     (fun (s : nat) (acc item : option nat) (index : nat) =>
        (@Fulfilled string _ (match acc, item with Some a, Some b => Some (a + b + index) | _, _ => None end),
         S s)) s acc item index =
     (Fulfilled (fst ((fun '(acc, s) (item : option nat) (index : nat) =>
                         (match acc, item with Some a, Some b => Some (a + b + index) | _, _ => None end,
                          S s)) (acc, s) item index)),
      snd ((fun '(acc, s) (item : option nat) (index : nat) =>
              (match acc, item with Some a, Some b => Some (a + b + index) | _, _ => None end,
               S s)) (acc, s) item index))) /\
  seq_reduce (fun (s : nat) (acc item : option nat) (index : nat) =>
                (@Fulfilled string _ (match acc, item with Some a, Some b => Some (a + b + index) | _, _ => None end),
                 S s)) [Some 1; Some 2; Some 3] None 0 =
  (Fulfilled (Some 9), 2).
Proof.
  split; [intros s acc item index; reflexivity|].
  rewrite (seq_reduce_fulfilling
             (fun (s : nat) (acc item : option nat) (index : nat) =>
                (@Fulfilled string _ (match acc, item with Some a, Some b => Some (a + b + index) | _, _ => None end),
                 S s))
             (fun '(acc, s) (item : option nat) (index : nat) =>
                (match acc, item with Some a, Some b => Some (a + b + index) | _, _ => None end, S s))
             (fun s acc item index => eq_refl) [Some 1; Some 2; Some 3] None 0).
  reflexivity.
Defined.

Lemma parallel_filter_async_permutation_witness :
  Permutation [2; 1; 0] (seq 0 (List.length [3; 2; 0])) /\
  match parallel_filter_async (log_calls Fixtures.reject_on_one) [3; 2; 0] (0, []) [2; 1; 0] with
  | (p, (_, log)) =>
      map fst log = seq 0 (List.length [3; 2; 0]) /\
      match p with
      | Fulfilled r => exists bs, map snd log = map Fulfilled bs /\
                                  Permutation r (map Some (keep [3; 2; 0] bs))
      | Rejected e => In (Rejected e) (map snd log)
      end
  end.
Proof.
  split; [simpl; apply Permutation_sym, (Permutation_rev [0; 1; 2])|].
  apply (parallel_filter_async_permutation Fixtures.reject_on_one [3; 2; 0] 0 [2; 1; 0]).
  simpl; apply Permutation_sym, (Permutation_rev [0; 1; 2]).
Defined.

Lemma parallel_filter_async_small_witness :
  List.length [2; 0; 2] <= 10 /\
  Permutation [2; 1; 0] (seq 0 (List.length [2; 0; 2])) /\
  match parallel_filter_async (log_calls Fixtures.reject_on_one) [2; 0; 2] (0, []) [2; 1; 0] with
  | (p, (_, log)) =>
      match p with
      | Fulfilled r => exists bs, map snd log = map Fulfilled bs /\ r = map Some (keep [2; 0; 2] bs)
      | Rejected e => In (Rejected e) (map snd log)
      end
  end.
Proof.
  split; [simpl; lia|]; split; [simpl; apply Permutation_sym, (Permutation_rev [0; 1; 2])|].
  apply (parallel_filter_async_small Fixtures.reject_on_one [2; 0; 2] 0 [2; 1; 0]);
    [simpl; lia | simpl; apply Permutation_sym, (Permutation_rev [0; 1; 2])].
Defined.

Lemma parallel_filter_async_schedule_independent_witness :
  Permutation (seq 0 12) (seq 0 (List.length (seq 0 12))) /\
  Permutation (rev (seq 0 12)) (seq 0 (List.length (seq 0 12))) /\
  match fst (parallel_filter_async Fixtures.reject_on_one (seq 0 12) 0 (seq 0 12)),
        fst (parallel_filter_async Fixtures.reject_on_one (seq 0 12) 0 (rev (seq 0 12))) with
  | Fulfilled r1, Fulfilled r2 => r1 = r2
  | Rejected _, Rejected _ => True
  | _, _ => False
  end.
Proof.
  split; [rewrite length_seq; reflexivity|].
  split; [rewrite length_seq; apply Permutation_sym, Permutation_rev|].
  apply (parallel_filter_async_schedule_independent Fixtures.reject_on_one (seq 0 12) 0
           (seq 0 12) (rev (seq 0 12))); rewrite length_seq;
    [reflexivity | apply Permutation_sym, Permutation_rev].
Defined.

End FunArMore.
